(** * OpenTrackIO property decoders (OpenTrackIOProperties.cpp)

    A shallow embedding of the eleven property decoders of opentrackio-cpp.
    JSON values follow nlohmann::json: objects are association lists,
    [contains] is false on anything but an object, and the const
    [operator[]] is only used by the decoders after a [contains] check.

    The error sink [std::vector<std::string>& errors] is only ever appended
    to and never read by the decoders, so it is modelled as a writer monad:
    a decoder returns its result together with the errors it appends. *)

From Stdlib Require Import String Ascii List ZArith QArith Bool Lia.
Import ListNotations.
Open Scope string_scope.

(** ** JSON documents *)

Set Warnings "-register-all".

Inductive json : Type :=
| JNull
| JBool (b : bool)
| JInt (z : Z)                 (* number_integer / number_unsigned *)
| JFloat (q : Q)               (* number_float *)
| JString (s : string)
| JArray (l : list json)
| JObject (kvs : list (string * json)).

Fixpoint lookup (k : string) (kvs : list (string * json)) : option json :=
  match kvs with
  | [] => None
  | (k', v) :: rest => if String.eqb k k' then Some v else lookup k rest
  end.

(** [json.contains(key)]: false when the value is not an object. *)
Definition contains (j : json) (k : string) : bool :=
  match j with
  | JObject kvs => match lookup k kvs with Some _ => true | None => false end
  | _ => false
  end.

(** [json[key]] on a const value. nlohmann leaves a missing key (and a
    non-object) undefined or throwing; every use below except
    [Protocol::parse]'s [name] is guarded by [contains], and the unguarded
    one is read as [null], which fails every type check. *)
Definition at_ (j : json) (k : string) : json :=
  match j with
  | JObject kvs => match lookup k kvs with Some v => v | None => JNull end
  | _ => JNull
  end.

Definition is_object (j : json) : bool :=
  match j with JObject _ => true | _ => false end.

Definition is_array (j : json) : bool :=
  match j with JArray _ => true | _ => false end.

(** [std::optional::has_value] *)
Definition has_value {T} (o : option T) : bool :=
  match o with Some _ => true | None => false end.

(** ** The error sink: a writer monad over the appended messages *)

Definition M (A : Type) : Type := (A * list string)%type.

Definition ret {A} (a : A) : M A := (a, []).

Definition bind {A B} (m : M A) (f : A -> M B) : M B :=
  let (a, e1) := m in
  let (b, e2) := f a in
  (b, List.app e1 e2).

Definition emplace_back (msg : string) : M unit := (tt, [msg]).

Notation "x <- m ;; k" := (bind m (fun x => k))
  (at level 61, m at next level, right associativity).
Notation "m ;;; k" := (bind m (fun _ => k))
  (at level 61, right associativity).

(** ** std::regex full matches (ECMAScript grammar), by derivatives *)

Module Regex.

Inductive regex : Type :=
| Empty
| Eps
| Class (p : ascii -> bool)
| Seq (r1 r2 : regex)
| Alt (r1 r2 : regex)
| Star (r : regex).

Fixpoint nullable (r : regex) : bool :=
  match r with
  | Empty => false
  | Eps => true
  | Class _ => false
  | Seq r1 r2 => nullable r1 && nullable r2
  | Alt r1 r2 => nullable r1 || nullable r2
  | Star _ => true
  end.

Fixpoint deriv (c : ascii) (r : regex) : regex :=
  match r with
  | Empty => Empty
  | Eps => Empty
  | Class p => if p c then Eps else Empty
  | Seq r1 r2 =>
      if nullable r1 then Alt (Seq (deriv c r1) r2) (deriv c r2)
      else Seq (deriv c r1) r2
  | Alt r1 r2 => Alt (deriv c r1) (deriv c r2)
  | Star r1 => Seq (deriv c r1) (Star r1)
  end.

(** [std::regex_match]: the whole string must match. *)
Fixpoint regex_match (r : regex) (s : string) : bool :=
  match s with
  | EmptyString => nullable r
  | String c rest => regex_match (deriv c r) rest
  end.

Definition chr (a : ascii) : regex := Class (fun c => Ascii.eqb c a).

Fixpoint lit (s : string) : regex :=
  match s with
  | EmptyString => Eps
  | String c rest => Seq (chr c) (lit rest)
  end.

Definition range (lo hi : ascii) : ascii -> bool :=
  fun c => Nat.leb (nat_of_ascii lo) (nat_of_ascii c) && Nat.leb (nat_of_ascii c) (nat_of_ascii hi).

(** [r+] and [r{n}] *)
Definition plus (r : regex) : regex := Seq r (Star r).

Fixpoint rep (n : nat) (r : regex) : regex :=
  match n with
  | O => Eps
  | S n' => Seq r (rep n' r)
  end.

(** [[0-9]], [[0-9a-f]], [[A-F0-9]] *)
Definition digit : regex := Class (range "0" "9").
Definition hex_lower : regex := Class (fun c => range "0" "9" c || range "a" "f" c).
Definition hex_upper : regex := Class (fun c => range "A" "F" c || range "0" "9" c).

(** [.] matches any character but the line terminators. *)
Definition any_char : regex :=
  Class (fun c => negb (Ascii.eqb c (ascii_of_nat 10) || Ascii.eqb c (ascii_of_nat 13))).

(** [^urn:uuid:[0-9a-f]{8}-[0-9a-f]{4}-[0-9a-f]{4}-[0-9a-f]{4}-[0-9a-f]{12}$] *)
Definition uuid_pattern : regex :=
  Seq (lit "urn:uuid:")
  (Seq (rep 8 hex_lower) (Seq (chr "-")
  (Seq (rep 4 hex_lower) (Seq (chr "-")
  (Seq (rep 4 hex_lower) (Seq (chr "-")
  (Seq (rep 4 hex_lower) (Seq (chr "-")
  (rep 12 hex_lower))))))))).

(** [^[0-9]+.[0-9]+.[0-9]+$]: the dots are not escaped. *)
Definition version_pattern : regex :=
  Seq (plus digit) (Seq any_char (Seq (plus digit) (Seq any_char (plus digit)))).

(** [^([A-F0-9]{2}:){5}[A-F0-9]{2}$] *)
Definition mac_pattern : regex :=
  Seq (rep 5 (Seq (rep 2 hex_upper) (chr ":"))) (rep 2 hex_upper).

End Regex.

(** ** Validation helpers (OpenTrackIOHelper.h) *)

Module OpenTrackIOHelpers.

(** Modelled from the spec: [checkTypeAndSetField], from OpenTrackIOHelper.h,
    which is not among the sources. One conversion per target type: the value
    is taken when the JSON kind fits the target ("check type, assign or skip"),
    integers only when they fit the target's width. *)
Definition as_string (j : json) : option string :=
  match j with JString s => Some s | _ => None end.

Definition as_bool (j : json) : option bool :=
  match j with JBool b => Some b | _ => None end.

Definition as_integer (j : json) : option Z :=
  match j with JInt z => Some z | _ => None end.

Definition as_bounded (lo hi : Z) (j : json) : option Z :=
  match j with
  | JInt z => if (lo <=? z)%Z && (z <? hi)%Z then Some z else None
  | _ => None
  end.

Definition as_uint16 : json -> option Z := as_bounded 0 (2 ^ 16).
Definition as_uint32 : json -> option Z := as_bounded 0 (2 ^ 32).
Definition as_int64 : json -> option Z := as_bounded (- 2 ^ 63) (2 ^ 63).
(** A C++ [int] target (32 bits): the Camera's [isoSpeed] and [shutterAngle]. *)
Definition as_int : json -> option Z := as_bounded (- 2 ^ 31) (2 ^ 31).

Definition as_double (j : json) : option Q :=
  match j with
  | JInt z => Some (inject_Z z)
  | JFloat q => Some q
  | _ => None
  end.

(** Modelled from the spec: [iterateJsonArrayAndPopulateVector] coerces every
    element and fails on the first incompatible one. *)
Fixpoint populate {T} (conv : json -> option T) (l : list json) : option (list T) :=
  match l with
  | [] => Some []
  | x :: rest =>
      match conv x with
      | Some v => match populate conv rest with Some vs => Some (v :: vs) | None => None end
      | None => None
      end
  end.

Definition iterateJsonArrayAndPopulateVector {T} (conv : json -> option T) (j : json)
  : option (list T) :=
  match j with JArray l => populate conv l | _ => None end.

(** A [std::vector<double>] target. *)
Definition as_double_array : json -> option (list Q) :=
  iterateJsonArrayAndPopulateVector as_double.

(** Modelled from the spec: [assignField(json, field, target, kind, errors)].
    Absent field: no-op, no error. Present with the wrong kind: one error,
    the target is not assigned. Otherwise the target is assigned. *)
Definition assignField {T} (j : json) (field : string) (target : option T)
  (conv : json -> option T) (kind : string) : M (option T) :=
  if contains j field then
    match conv (at_ j field) with
    | Some v => ret (Some v)
    | None => emplace_back ("field: " ++ field ++ " isn't of type: " ++ kind) ;;; ret target
    end
  else ret target.

(** Modelled from the spec: [assignRegexField(json, field, target, pattern,
    errors)]: as [assignField] for a string, plus a full match against the
    pattern, whose failure is its own kind of error. *)
Definition assignRegexField (j : json) (field : string) (target : option string)
  (pattern : Regex.regex) : M (option string) :=
  if contains j field then
    match as_string (at_ j field) with
    | Some s =>
        if Regex.regex_match pattern s then ret (Some s)
        else emplace_back ("field: " ++ field ++ " doesn't match required pattern") ;;; ret target
    | None => emplace_back ("field: " ++ field ++ " isn't of type: string") ;;; ret target
    end
  else ret target.

End OpenTrackIOHelpers.

Import OpenTrackIOHelpers.

(** ** Primitive parsers (opentrackiotypes)

    [Rational::parse], [Dimensions::parse], [Timestamp::parse],
    [Timecode::parse] and [Transform::parse] are not among the sources, nor
    is the lens encoders' type; the
    decoders only call them on a sub-document and keep what they return, so
    the development is generic in them: each is any function from a JSON
    node to an optional value and the errors it appends. *)

Class Primitives : Type := {
  Rational : Type;
  Dimensions : Type;
  Timestamp : Type;
  Timecode : Type;
  Transform : Type;
  Rational_parse : json -> M (option Rational);
  Dimensions_parse : json -> M (option Dimensions);
  Timestamp_parse : json -> M (option Timestamp);
  Timecode_parse : json -> M (option Timecode);
  Transform_parse : json -> M (option Transform);
  (** the lens encoders' target type and its [checkTypeAndSetField] *)
  Encoders : Type;
  as_encoders : json -> option Encoders
}.

(** ** Camera::parse *)

Module Camera.
Section Decode.
Context `{P : Primitives}.

Record Camera : Type := mkCamera {
  activeSensorPhysicalDimensions : option Dimensions;
  activeSensorResolution : option Dimensions;
  anamorphicSqueeze : option Rational;
  firmwareVersion : option string;
  label : option string;
  make : option string;
  model : option string;
  serialNumber : option string;
  captureFrameRate : option Rational;
  fdlLink : option string;
  isoSpeed : option Z;
  shutterAngle : option Z
}.

Definition shutter_angle_msg : string :=
  "field: shutterAngle is outside the expected range 1 - 360000.".

Definition parse (json : json) : M (option Camera) :=
  if negb (contains json "static") || negb (contains (at_ json "static") "camera") then
    ret None
  else if negb (is_object (at_ (at_ json "static") "camera")) then
    emplace_back "field: camera isn't of type: object" ;;; ret None
  else
    let cameraJson := at_ (at_ json "static") "camera" in
    physical <- (if contains cameraJson "activeSensorPhysicalDimensions"
                 then Dimensions_parse (at_ cameraJson "activeSensorPhysicalDimensions")
                 else ret None) ;;
    resolution <- (if contains cameraJson "activeSensorResolution"
                   then Dimensions_parse (at_ cameraJson "activeSensorResolution")
                   else ret None) ;;
    squeeze <- (if contains cameraJson "anamorphicSqueeze"
                then Rational_parse (at_ cameraJson "anamorphicSqueeze")
                else ret None) ;;
    fw <- assignField cameraJson "firmwareVersion" None as_string "string" ;;
    lbl <- assignField cameraJson "label" None as_string "string" ;;
    mk <- assignField cameraJson "make" None as_string "string" ;;
    mdl <- assignField cameraJson "model" None as_string "string" ;;
    sn <- assignField cameraJson "serialNumber" None as_string "string" ;;
    rate <- (if contains cameraJson "captureFrameRate"
             then Rational_parse (at_ cameraJson "captureFrameRate")
             else ret None) ;;
    fdl <- assignRegexField cameraJson "fdlLink" None Regex.uuid_pattern ;;
    iso <- assignField cameraJson "isoSpeed" None as_int "integer" ;;
    sa <- assignField cameraJson "shutterAngle" None as_int "integer" ;;
    sa <- (match sa with
           | Some v => if (360000 <? v)%Z
                       then emplace_back shutter_angle_msg ;;; ret None
                       else ret sa
           | None => ret sa
           end) ;;
    ret (Some (mkCamera physical resolution squeeze fw lbl mk mdl sn rate fdl iso sa)).

End Decode.
End Camera.

(** ** Duration::parse *)

Module Duration.

Record Duration : Type := mkDuration { num : Z; denom : Z }.

Definition missing_msg : string := "field: duration is missing required fields".

(** Line 96 of the source assigns [denom] into [numerator]; [denominator]
    keeps its initial [std::nullopt]. *)
Definition parse (json : json) : M (option Duration) :=
  if negb (contains json "static") || negb (contains (at_ json "static") "duration") then
    ret None
  else if negb (is_object (at_ (at_ json "static") "duration")) then
    emplace_back "field: duration isn't of type: object" ;;; ret None
  else
    let durationJson := at_ (at_ json "static") "duration" in
    let denominator : option Z := None in
    numerator <- assignField durationJson "num" None as_uint32 "uint32" ;;
    numerator <- assignField durationJson "denom" numerator as_uint32 "uint32" ;;
    match numerator, denominator with
    | Some n, Some d => ret (Some (mkDuration n d))
    | _, _ => emplace_back missing_msg ;;; ret None
    end.

End Duration.

(** ** GlobalStage::parse *)

Module GlobalStage.

Record GlobalStage : Type := mkGlobalStage { e : Q; n : Q; u : Q; lat0 : Q; lon0 : Q; h0 : Q }.

(** The [fieldCheckAndAssign] lambda. *)
Definition fieldCheckAndAssign (gsJson : json) (fieldStr : string) : M (option Q) :=
  if negb (contains gsJson fieldStr) then
    emplace_back ("field: globalStage is missing require field: " ++ fieldStr) ;;; ret None
  else
    match as_double (at_ gsJson fieldStr) with
    | Some v => ret (Some v)
    | None => emplace_back ("field: globalStage/" ++ fieldStr ++ " isn't a number") ;;; ret None
    end.

(** [&&] short-circuits: the first failing field ends the chain. *)
Definition parse (json : json) : M (option GlobalStage) :=
  if negb (contains json "globalStage") then ret None
  else if negb (is_object (at_ json "globalStage")) then
    emplace_back "field: globalStage isn't of type: object" ;;; ret None
  else
    let gsJson := at_ json "globalStage" in
    oe <- fieldCheckAndAssign gsJson "E" ;;
    match oe with None => ret None | Some e =>
    on <- fieldCheckAndAssign gsJson "N" ;;
    match on with None => ret None | Some n =>
    ou <- fieldCheckAndAssign gsJson "U" ;;
    match ou with None => ret None | Some u =>
    olat <- fieldCheckAndAssign gsJson "lat0" ;;
    match olat with None => ret None | Some lat0 =>
    olon <- fieldCheckAndAssign gsJson "lon0" ;;
    match olon with None => ret None | Some lon0 =>
    oh <- fieldCheckAndAssign gsJson "h0" ;;
    match oh with None => ret None | Some h0 =>
    ret (Some (mkGlobalStage e n u lat0 lon0 h0))
    end end end end end end.

End GlobalStage.

(** ** Protocol::parse *)

Module Protocol.

Record Protocol : Type := mkProtocol { name : string; version : string }.

(** [proJson["name"]] is read on a const object without a [contains] guard:
    the source throws (a non-object [protocol]) or has undefined behaviour
    (no [name] key) there. Those inputs are modelled as the type error, so
    the properties below are meant for a [protocol] object with a [name]. *)
Definition parse (json : json) : M (option Protocol) :=
  if negb (contains json "protocol") then ret None
  else
    let proJson := at_ json "protocol" in
    match as_string (at_ proJson "name") with
    | None => emplace_back "field: protocol isn't of type: string" ;;; ret None
    | Some nm =>
        versionStr <- assignRegexField proJson "version" None Regex.version_pattern ;;
        match versionStr with
        | None => ret None
        | Some v => ret (Some (mkProtocol nm v))
        end
    end.

End Protocol.

(** ** RelatedSampleIds::parse *)

Module RelatedSampleIds.

Record RelatedSampleIds : Type := mkRelatedSampleIds { samples : list string }.

Definition type_msg : string := "field: relatedSampleIds/element isn't of type: string".
Definition pattern_msg : string := "field: relatedSampleIds/element doesn't match required pattern".

(** The [for (item : rsJson.items())] loop; [samples] is the vector built so far. *)
Fixpoint loop (items : list json) (samples : list string) : M (list string) :=
  match items with
  | [] => ret samples
  | item :: rest =>
      match as_string item with
      | None => emplace_back type_msg ;;; loop rest samples
      | Some str =>
          if negb (Regex.regex_match Regex.uuid_pattern str) then
            emplace_back pattern_msg ;;; loop rest samples
          else loop rest (samples ++ [str])%list
      end
  end.

Definition parse (json : json) : M (option RelatedSampleIds) :=
  if negb (contains json "relatedSampleIds") then ret None
  else if negb (is_array (at_ json "relatedSampleIds")) then
    emplace_back "field: relatedSampleIds isn't of type: array" ;;; ret None
  else
    let items := match at_ json "relatedSampleIds" with JArray l => l | _ => [] end in
    s <- loop items [] ;;
    ret (Some (mkRelatedSampleIds s)).

End RelatedSampleIds.

(** ** SampleId::parse and StreamId::parse *)

Module SampleId.

Record SampleId : Type := mkSampleId { value : string }.

Definition parse (json : json) : M (option SampleId) :=
  if negb (contains json "sampleId") then ret None
  else
    str <- assignRegexField json "sampleId" None Regex.uuid_pattern ;;
    match str with None => ret None | Some s => ret (Some (mkSampleId s)) end.

End SampleId.

Module StreamId.

Record StreamId : Type := mkStreamId { value : string }.

Definition parse (json : json) : M (option StreamId) :=
  if negb (contains json "streamId") then ret None
  else
    str <- assignRegexField json "streamId" None Regex.uuid_pattern ;;
    match str with None => ret None | Some s => ret (Some (mkStreamId s)) end.

End StreamId.

(** ** Timing::parse and Timing::parseSynchronization *)

Module Timing.
Section Decode.
Context `{P : Primitives}.

Inductive Mode : Type := EXTERNAL | INTERNAL.

Inductive SourceType : Type := GEN_LOCK | VIDEO_IN | PTP | NTP.

Record Offsets : Type := mkOffsets {
  translation : option Q;
  rotation : option Q;
  lensEncoders : option Q
}.

Record Ptp : Type := mkPtp {
  domain : option Z;
  offset : option Q;
  master : option string
}.

Record Synchronization : Type := mkSynchronization {
  frequency : Rational;
  locked : bool;
  source : SourceType;
  offsets : option Offsets;
  present : option bool;
  ptp : option Ptp
}.

Record Timing : Type := mkTiming {
  frameRate : option Rational;
  mode : option Mode;
  recordedTimestamp : option Timestamp;
  sampleTimestamp : option Timestamp;
  sequenceNumber : option Z;
  synchronization : option Synchronization;
  timecode : option Timecode
}.

Definition sync_missing_msg : string :=
  "field: timing/synchronization is missing required fields".

Definition parseSynchronization (json : json) : M (option Synchronization) :=
  let hasRequired :=
    contains json "frequency" && contains json "locked" && contains json "source" in
  if negb hasRequired then emplace_back sync_missing_msg ;;; ret None
  else
    freq <- Rational_parse (at_ json "frequency") ;;
    match freq with
    | None =>
        emplace_back "field: timing/synchronization/frequency is missing required fields" ;;;
        ret None
    | Some frequency =>
    match as_bool (at_ json "locked") with
    | None => emplace_back "field: timing/synchronization/lock isn't of type: bool" ;;; ret None
    | Some locked =>
    match as_string (at_ json "source") with
    | None => emplace_back "field: timing/synchronization/source isn't of type: string" ;;; ret None
    | Some str =>
    src <- (if String.eqb str "genlock" then ret (Some GEN_LOCK)
            else if String.eqb str "videoIn" then ret (Some VIDEO_IN)
            else if String.eqb str "ptp" then ret (Some PTP)
            else if String.eqb str "ntp" then ret (Some NTP)
            else emplace_back "field: timing/synchronization/source isn't a valid enumeration" ;;;
                 ret None) ;;
    match src with
    | None => ret None
    | Some source =>
    (* Non-Required Fields *)
    offsets <- (if contains json "offsets" then
                  let oj := at_ json "offsets" in
                  t <- assignField oj "translation" None as_double "double" ;;
                  r <- assignField oj "rotation" None as_double "double" ;;
                  l <- assignField oj "lensEncoders" None as_double "double" ;;
                  if negb (has_value t) && negb (has_value r) && negb (has_value l) then ret None
                  else ret (Some (mkOffsets t r l))
                else ret None) ;;
    present <- assignField json "present" None as_bool "bool" ;;
    ptp <- (if contains json "ptp" then
              let pj := at_ json "ptp" in
              d <- assignField pj "domain" None as_uint16 "uint16" ;;
              o <- assignField pj "offset" None as_double "double" ;;
              m <- assignRegexField pj "master" None Regex.mac_pattern ;;
              if negb (has_value d) && negb (has_value o) && negb (has_value m) then ret None
              else ret (Some (mkPtp d o m))
            else ret None) ;;
    ret (Some (mkSynchronization frequency locked source offsets present ptp))
    end end end end.

(** [str == "external"] on a [std::optional<std::string>]. *)
Definition opt_eq (str : option string) (lit : string) : bool :=
  match str with Some s => String.eqb s lit | None => false end.

(** A string literal used as an operand of [||] converts to [bool] through
    its (non-null) address, which is [true]. *)
Definition literal_as_bool (lit : string) : bool := true.

Definition mode_msg : string := "field: timing/mode has an invalid string value.".

Definition parse (json : json) : M (option Timing) :=
  if negb (contains json "timing") then ret None
  else if negb (is_object (at_ json "timing")) then
    emplace_back "field: timing isn't of type: object" ;;; ret None
  else
    let timingJson := at_ json "timing" in
    frameRate <- (if contains timingJson "frameRate"
                  then Rational_parse (at_ timingJson "frameRate") else ret None) ;;
    str <- assignField timingJson "mode" None as_string "string" ;;
    mode <- (if has_value str && (opt_eq str "external" || literal_as_bool "internal")
             then ret (Some (if opt_eq str "external" then EXTERNAL else INTERNAL))
             else emplace_back mode_msg ;;; ret None) ;;
    recorded <- (if contains timingJson "recordedTimestamp"
                 then Timestamp_parse (at_ timingJson "recordedTimestamp") else ret None) ;;
    sample <- (if contains timingJson "sampleTimestamp"
               then Timestamp_parse (at_ timingJson "sampleTimestamp") else ret None) ;;
    seqn <- assignField timingJson "sequenceNumber" None as_uint16 "uint16" ;;
    sync <- (if contains timingJson "synchronization"
             then parseSynchronization (at_ timingJson "synchronization") else ret None) ;;
    tc <- (if contains timingJson "timecode"
           then Timecode_parse (at_ timingJson "timecode") else ret None) ;;
    ret (Some (mkTiming frameRate mode recorded sample seqn sync tc)).

End Decode.
End Timing.

(** ** Tracker::parse *)

Module Tracker.

Record Tracker : Type := mkTracker {
  firmwareVersion : option string;
  make : option string;
  model : option string;
  serialNumber : option string;
  notes : option string;
  recording : option bool;
  slate : option string;
  status : option string
}.

Definition parse (json : json) : M (option Tracker) :=
  if negb (contains json "tracker")
     && (negb (contains json "static") || negb (contains (at_ json "static") "tracker")) then
    ret None
  else
    (* Static Fields *)
    st <- (if contains json "static" && contains (at_ json "static") "tracker" then
             let tkrJson := at_ (at_ json "static") "tracker" in
             fw <- assignField tkrJson "firmwareVersion" None as_string "string" ;;
             mk <- assignField tkrJson "make" None as_string "string" ;;
             mdl <- assignField tkrJson "model" None as_string "string" ;;
             sn <- assignField tkrJson "serialNumber" None as_string "string" ;;
             ret (fw, mk, mdl, sn)
           else ret (None, None, None, None)) ;;
    (* Standard Fields *)
    sd <- (if contains json "tracker" then
             let tkrJson := at_ json "tracker" in
             nt <- assignField tkrJson "notes" None as_string "string" ;;
             rec <- assignField tkrJson "recording" None as_bool "boolean" ;;
             sl <- assignField tkrJson "slate" None as_string "string" ;;
             stt <- assignField tkrJson "status" None as_string "string" ;;
             ret (nt, rec, sl, stt)
           else ret (None, None, None, None)) ;;
    let '(fw, mk, mdl, sn) := st in
    let '(nt, rec, sl, stt) := sd in
    ret (Some (mkTracker fw mk mdl sn nt rec sl stt)).

End Tracker.

(** ** Transforms::parse *)

Module Transforms.
Section Decode.
Context `{P : Primitives}.

Record Transforms : Type := mkTransforms { transforms : list Transform }.

Fixpoint loop (items : list json) (tfs : list Transform) : M (list Transform) :=
  match items with
  | [] => ret tfs
  | transformJson :: rest =>
      tf <- Transform_parse transformJson ;;
      match tf with
      | Some t => loop rest (tfs ++ [t])%list
      | None => loop rest tfs
      end
  end.

Definition parse (json : json) : M (option Transforms) :=
  if negb (contains json "transforms") then ret None
  else if negb (is_array (at_ json "transforms")) then
    emplace_back "Transforms is not an array." ;;; ret None
  else
    let items := match at_ json "transforms" with JArray l => l | _ => [] end in
    tfs <- loop items [] ;;
    ret (Some (mkTransforms tfs)).

End Decode.
End Transforms.

(** ** Lens::parse *)

Module Lens.
Section Decode.
Context `{P : Primitives}.

Record Distortion : Type := mkDistortion { radial : list Q; tangential : option (list Q) }.
Record Undistortion : Type := mkUndistortion { u_radial : list Q; u_tangential : option (list Q) }.
Record DistortionShift : Type := mkDistortionShift { ds_x : Q; ds_y : Q }.
Record PerspectiveShift : Type := mkPerspectiveShift { ps_x : Q; ps_y : Q }.
Record EntrancePupilOffset : Type := mkEntrancePupilOffset { num : Z; denom : Z }.
Record ExposureFalloff : Type := mkExposureFalloff { a1 : Q; a2 : option Q; a3 : option Q }.

Record Lens : Type := mkLens {
  firmwareVersion : option string;
  make : option string;
  model : option string;
  nominalFocalLength : option Q;
  serialNumber : option string;
  custom : option (list Q);
  distortion : option Distortion;
  distortionOverscan : option Q;
  distortionScale : option Q;
  distortionShift : option DistortionShift;
  encoders : option Encoders;
  entrancePupilOffset : option EntrancePupilOffset;
  exposureFalloff : option ExposureFalloff;
  fStop : option Z;
  focalLength : option Q;
  focusDistance : option Z;
  perspectiveShift : option PerspectiveShift;
  rawEncoders : option Encoders;
  tStop : option Z;
  undistortion : option Undistortion
}.

(** [Lens lens{}] *)
Definition empty : Lens :=
  mkLens None None None None None None None None None None
         None None None None None None None None None None.

(** Static Fields, read from [static.lens]. *)
Definition staticFields (lensJson : json) (lens : Lens) : M Lens :=
  fw <- assignField lensJson "firmwareVersion" lens.(firmwareVersion) as_string "string" ;;
  mk <- assignField lensJson "make" lens.(make) as_string "string" ;;
  mdl <- assignField lensJson "model" lens.(model) as_string "string" ;;
  nfl <- assignField lensJson "nominalFocalLength" lens.(nominalFocalLength) as_double "double" ;;
  sn <- assignField lensJson "serialNumber" lens.(serialNumber) as_string "string" ;;
  ret (mkLens fw mk mdl nfl sn
         lens.(custom) lens.(distortion) lens.(distortionOverscan) lens.(distortionScale)
         lens.(distortionShift) lens.(encoders) lens.(entrancePupilOffset)
         lens.(exposureFalloff) lens.(fStop) lens.(focalLength) lens.(focusDistance)
         lens.(perspectiveShift) lens.(rawEncoders) lens.(tStop) lens.(undistortion)).

(** A [{radial, tangential}] group: materialized when [radial] is. *)
Definition radialGroup (gj : json) : M (option (list Q * option (list Q))) :=
  radial <- assignField gj "radial" None as_double_array "double" ;;
  tangential <- assignField gj "tangential" None as_double_array "double" ;;
  match radial with
  | Some r => ret (Some (r, tangential))
  | None => ret None
  end.

(** An [{x, y}] group: materialized when both members are. *)
Definition xyGroup (gj : json) : M (option (Q * Q)) :=
  x <- assignField gj "x" None as_double "double" ;;
  y <- assignField gj "y" None as_double "double" ;;
  match x, y with
  | Some xv, Some yv => ret (Some (xv, yv))
  | _, _ => ret None
  end.

(** Standard Fields, read from [lens]. *)
Definition standardFields (lensJson : json) (lens : Lens) : M Lens :=
  cust <- (if contains lensJson "custom" && is_array (at_ lensJson "custom") then
             match iterateJsonArrayAndPopulateVector as_double (at_ lensJson "custom") with
             | Some v => ret (Some v)
             | None => emplace_back "field: lens/custom value isn't of type: double" ;;; ret None
             end
           else ret lens.(custom)) ;;
  dist <- (if contains lensJson "distortion" then
             g <- radialGroup (at_ lensJson "distortion") ;;
             match g with
             | Some (r, t) => ret (Some (mkDistortion r t))
             | None => ret lens.(distortion)
             end
           else ret lens.(distortion)) ;;
  overscan <- assignField lensJson "distortionOverscan" lens.(distortionOverscan) as_double "double" ;;
  scale <- assignField lensJson "distortionScale" lens.(distortionScale) as_double "double" ;;
  dshift <- (if contains lensJson "distortionShift" then
               g <- xyGroup (at_ lensJson "distortionShift") ;;
               match g with
               | Some (x, y) => ret (Some (mkDistortionShift x y))
               | None => ret lens.(distortionShift)
               end
             else ret lens.(distortionShift)) ;;
  enc <- assignField lensJson "encoders" lens.(encoders) as_encoders "double" ;;
  epo <- (if contains lensJson "entrancePupilOffset" then
            let gj := at_ lensJson "entrancePupilOffset" in
            numerator <- assignField gj "num" None as_int64 "int64" ;;
            denominator <- assignField gj "denom" None as_int64 "int64" ;;
            match numerator, denominator with
            | Some n, Some d => ret (Some (mkEntrancePupilOffset n d))
            | _, _ => ret lens.(entrancePupilOffset)
            end
          else ret lens.(entrancePupilOffset)) ;;
  falloff <- (if contains lensJson "exposureFalloff" then
                let gj := at_ lensJson "exposureFalloff" in
                v1 <- assignField gj "a1" None as_double "double" ;;
                v2 <- assignField gj "a2" None as_double "double" ;;
                v3 <- assignField gj "a3" None as_double "double" ;;
                match v1 with
                | Some v => ret (Some (mkExposureFalloff v v2 v3))
                | None => ret lens.(exposureFalloff)
                end
              else ret lens.(exposureFalloff)) ;;
  fs <- assignField lensJson "fStop" lens.(fStop) as_uint32 "uint32" ;;
  fl <- assignField lensJson "focalLength" lens.(focalLength) as_double "double" ;;
  fd <- assignField lensJson "focusDistance" lens.(focusDistance) as_uint32 "uint32" ;;
  pshift <- (if contains lensJson "perspectiveShift" then
               g <- xyGroup (at_ lensJson "perspectiveShift") ;;
               match g with
               | Some (x, y) => ret (Some (mkPerspectiveShift x y))
               | None => ret lens.(perspectiveShift)
               end
             else ret lens.(perspectiveShift)) ;;
  raw <- assignField lensJson "rawEncoders" lens.(rawEncoders) as_encoders "double" ;;
  ts <- assignField lensJson "tStop" lens.(tStop) as_uint32 "uint32" ;;
  undist <- (if contains lensJson "undistortion" then
               g <- radialGroup (at_ lensJson "undistortion") ;;
               match g with
               | Some (r, t) => ret (Some (mkUndistortion r t))
               | None => ret lens.(undistortion)
               end
             else ret lens.(undistortion)) ;;
  ret (mkLens lens.(firmwareVersion) lens.(make) lens.(model) lens.(nominalFocalLength)
         lens.(serialNumber) cust dist overscan scale dshift enc epo falloff fs fl fd
         pshift raw ts undist).

Definition parse (json : json) : M (option Lens) :=
  if negb (contains json "lens")
     && (negb (contains json "static") || negb (contains (at_ json "static") "lens")) then
    ret None
  else
    lens <- (if contains json "static" && contains (at_ json "static") "lens"
             then staticFields (at_ (at_ json "static") "lens") empty
             else ret empty) ;;
    lens <- (if contains json "lens" then standardFields (at_ json "lens") lens
             else ret lens) ;;
    ret (Some lens).

End Decode.
End Lens.

(** ** A concrete instance of the primitive parsers *)

Module SpecPrimitives.

Record Rational : Type := mkRational { num : Z; denom : Z }.
Record Dimensions : Type := mkDimensions { width : Q; height : Q }.
Record Timestamp : Type := mkTimestamp { seconds : Z; nanoseconds : Z }.
Record Timecode : Type := mkTimecode { hours : Z; minutes : Z; secs : Z; frames : Z }.

(** Modelled from the spec: [Rational::parse], a [{num, denom}] object. *)
Definition Rational_parse (j : json) : M (option Rational) :=
  match as_integer (at_ j "num"), as_uint32 (at_ j "denom") with
  | Some n, Some d => ret (Some (mkRational n d))
  | _, _ => emplace_back "field: rational is missing required fields" ;;; ret None
  end.

(** Modelled from the spec: [Dimensions::parse], a [{width, height}] object. *)
Definition Dimensions_parse (j : json) : M (option Dimensions) :=
  match as_double (at_ j "width"), as_double (at_ j "height") with
  | Some w, Some h => ret (Some (mkDimensions w h))
  | _, _ => emplace_back "field: dimensions is missing required fields" ;;; ret None
  end.

(** Modelled from the spec: [Timestamp::parse], a [{seconds, nanoseconds}] object. *)
Definition Timestamp_parse (j : json) : M (option Timestamp) :=
  match as_integer (at_ j "seconds"), as_integer (at_ j "nanoseconds") with
  | Some s, Some n => ret (Some (mkTimestamp s n))
  | _, _ => emplace_back "field: timestamp is missing required fields" ;;; ret None
  end.

(** Modelled from the spec: [Timecode::parse]. *)
Definition Timecode_parse (j : json) : M (option Timecode) :=
  match as_integer (at_ j "hours"), as_integer (at_ j "minutes"),
        as_integer (at_ j "seconds"), as_integer (at_ j "frames") with
  | Some h, Some m, Some s, Some f => ret (Some (mkTimecode h m s f))
  | _, _, _, _ => emplace_back "field: timecode is missing required fields" ;;; ret None
  end.

(** Modelled from the spec: [Transform::parse]; a transform entry is an
    object, kept as its members. *)
Definition Transform_parse (j : json) : M (option (list (string * json))) :=
  match j with
  | JObject kvs => ret (Some kvs)
  | _ => emplace_back "field: transform isn't of type: object" ;;; ret None
  end.

(** Modelled from the spec: lens encoders, an object of numbers. *)
Fixpoint numeric_members (kvs : list (string * json)) : option (list (string * Q)) :=
  match kvs with
  | [] => Some []
  | (k, v) :: rest =>
      match as_double v, numeric_members rest with
      | Some q, Some qs => Some ((k, q) :: qs)
      | _, _ => None
      end
  end.

Definition as_encoders (j : json) : option (list (string * Q)) :=
  match j with JObject kvs => numeric_members kvs | _ => None end.

#[export] Instance primitives : Primitives := {
  Rational := Rational;
  Dimensions := Dimensions;
  Timestamp := Timestamp;
  Timecode := Timecode;
  Transform := list (string * json);
  Rational_parse := Rational_parse;
  Dimensions_parse := Dimensions_parse;
  Timestamp_parse := Timestamp_parse;
  Timecode_parse := Timecode_parse;
  Transform_parse := Transform_parse;
  Encoders := list (string * Q);
  as_encoders := as_encoders
}.

End SpecPrimitives.

(** ** Document predicates used in the statements *)

(** The nested key path [k1.k2...] is present. *)
Fixpoint has_key_path (j : json) (ks : list string) : bool :=
  match ks with
  | [] => true
  | k :: rest => contains j k && has_key_path (at_ j k) rest
  end.

(** Member [k] of [g] is present and accepted by its target type. *)
Definition member_valid {T} (g : json) (k : string) (conv : json -> option T) : bool :=
  contains g k && has_value (conv (at_ g k)).

(** Member [k] of [g] is present, a string, and matches [pattern]. *)
Definition regex_member_valid (g : json) (k : string) (pattern : Regex.regex) : bool :=
  contains g k &&
  match as_string (at_ g k) with
  | Some s => Regex.regex_match pattern s
  | None => false
  end.

(** Object [kvs] without the member [k]. *)
Definition remove_key (k : string) (kvs : list (string * json)) : list (string * json) :=
  filter (fun kv => negb (String.eqb k (fst kv))) kvs.

(** ** Writer-monad and JSON lemmas *)

Lemma bind_spec {A B} (m : M A) (f : A -> M B) :
  bind m f = (fst (f (fst m)), List.app (snd m) (snd (f (fst m)))).
Proof. destruct m as [a e]; simpl; destruct (f a); reflexivity. Qed.

Lemma fst_bind {A B} (m : M A) (f : A -> M B) : fst (bind m f) = fst (f (fst m)).
Proof. rewrite bind_spec; reflexivity. Qed.

Lemma contains_at_object (j : json) (k : string) (kvs : list (string * json)) :
  at_ j k = JObject kvs -> contains j k = true.
Proof.
  destruct j; simpl; try discriminate.
  destruct (lookup k kvs0); [reflexivity | discriminate].
Qed.

Lemma lookup_remove_neq (k k' : string) (kvs : list (string * json)) :
  k <> k' -> lookup k' (remove_key k kvs) = lookup k' kvs.
Proof.
  intros Hne; induction kvs as [|[k0 v] rest IH]; simpl; [reflexivity|].
  destruct (String.eqb k k0) eqn:E; simpl.
  - apply String.eqb_eq in E; subst k0.
    destruct (String.eqb k' k) eqn:E'; [apply String.eqb_eq in E'; congruence | exact IH].
  - rewrite IH; reflexivity.
Qed.

Lemma lookup_remove_same (k : string) (kvs : list (string * json)) :
  lookup k (remove_key k kvs) = None.
Proof.
  induction kvs as [|[k0 v] rest IH]; simpl; [reflexivity|].
  destruct (String.eqb k k0) eqn:E; simpl; [exact IH|].
  rewrite E; exact IH.
Qed.

Lemma contains_remove_neq (k k' : string) (kvs : list (string * json)) :
  k <> k' -> contains (JObject (remove_key k kvs)) k' = contains (JObject kvs) k'.
Proof. intros H; simpl; rewrite lookup_remove_neq by exact H; reflexivity. Qed.

Lemma at_remove_neq (k k' : string) (kvs : list (string * json)) :
  k <> k' -> at_ (JObject (remove_key k kvs)) k' = at_ (JObject kvs) k'.
Proof. intros H; simpl; rewrite lookup_remove_neq by exact H; reflexivity. Qed.

Lemma contains_remove_same (k : string) (kvs : list (string * json)) :
  contains (JObject (remove_key k kvs)) k = false.
Proof. simpl; rewrite lookup_remove_same; reflexivity. Qed.

Lemma assignField_remove_neq {T} (k f : string) (kvs : list (string * json)) (t : option T)
  (conv : json -> option T) (kind : string) :
  k <> f ->
  assignField (JObject (remove_key k kvs)) f t conv kind = assignField (JObject kvs) f t conv kind.
Proof.
  intros H; unfold assignField; rewrite contains_remove_neq, at_remove_neq by exact H;
  reflexivity.
Qed.

Lemma fst_assignField {T} (j : json) (f : string) (t : option T) (conv : json -> option T)
  (kind : string) :
  fst (assignField j f t conv kind) =
  if contains j f then match conv (at_ j f) with Some v => Some v | None => t end else t.
Proof.
  unfold assignField; destruct (contains j f); [|reflexivity].
  destruct (conv (at_ j f)); reflexivity.
Qed.

Lemma fst_assignRegexField (j : json) (f : string) (t : option string) (p : Regex.regex) :
  fst (assignRegexField j f t p) =
  if regex_member_valid j f p then as_string (at_ j f) else t.
Proof.
  unfold assignRegexField, regex_member_valid; destruct (contains j f); simpl; [|reflexivity].
  destruct (as_string (at_ j f)); [|reflexivity].
  destruct (Regex.regex_match p s); reflexivity.
Qed.

Lemma bind_some {A B} (m : M A) (f : A -> M (option B)) :
  (forall a, exists x e, f a = (Some x, e)) -> exists x e, bind m f = (Some x, e).
Proof.
  intros H; destruct m as [a e1]; destruct (H a) as (x & e & Hf).
  exists x, (List.app e1 e); simpl; rewrite Hf; reflexivity.
Qed.

Lemma absent_path (x y : bool) : x && y = false -> negb x || negb y = true.
Proof. destruct x, y; simpl; congruence. Qed.

Lemma bind_pair {A B} (a : A) (e : list string) (f : A -> M B) :
  bind (a, e) f = let (b, e2) := f a in (b, List.app e e2).
Proof. reflexivity. Qed.

(** Running a chain of binds whose steps are left abstract. *)
Ltac run_binds :=
  repeat (match goal with
          | |- context [bind ?m _] =>
              lazymatch m with
              | (_, _) => fail
              | _ => let v := fresh "v" in let e := fresh "e" in destruct m as [v e]
              end
          end;
          rewrite ?bind_pair; cbv beta).

(** Projecting the value out of a chain of binds. *)
Ltac fst_chain := repeat (rewrite fst_bind; cbv beta).
Ltac fst_chain_in H := repeat (rewrite fst_bind in H; cbv beta in H).

(** ** Duration *)

(** C1 (code): [Duration::parse] never returns a value: [denom] is written
    into [numerator] and [denominator] stays empty, so the "missing required
    fields" branch is always taken once the section is an object. *)
Theorem Duration_parse_never_present (d : json) : fst (Duration.parse d) = None.
Proof.
  unfold Duration.parse.
  destruct (negb (contains d "static") || negb (contains (at_ d "static") "duration"));
    [reflexivity|].
  destruct (negb (is_object (at_ (at_ d "static") "duration"))); [reflexivity|].
  rewrite !fst_bind; cbv beta.
  destruct (fst (assignField _ "denom" _ _ _)); reflexivity.
Qed.

(** C1 (code): with [num = 24] and [denom = 1], both valid uint32 values,
    the decoder returns no Duration and reports missing required fields. *)
Theorem Duration_parse_valid_fields_dropped :
  Duration.parse
    (JObject [("static", JObject [("duration", JObject [("num", JInt 24); ("denom", JInt 1)])])])
  = (None, [Duration.missing_msg]).
Proof. reflexivity. Qed.

(** ** Timing mode *)

Section TimingMode.
Context `{P : Primitives}.

Definition timing_doc (kvs : list (string * json)) : json := JObject [("timing", JObject kvs)].

(** C2 (code): any string other than ["external"] as [timing.mode] decodes to
    INTERNAL, and no error is appended ([|| "internal"] is always true). *)
Theorem Timing_mode_any_string_internal (s : string) :
  s <> "external" ->
  Timing.parse (timing_doc [("mode", JString s)]) =
  (Some (Timing.mkTiming None (Some Timing.INTERNAL) None None None None None), []).
Proof.
  intros Hs.
  assert (E : String.eqb s "external" = false) by (apply String.eqb_neq; exact Hs).
  unfold Timing.parse, timing_doc, assignField, Timing.opt_eq; simpl.
  rewrite E; reflexivity.
Qed.

(** C9 (code): a timing object without a [mode] key leaves [mode] absent but
    still appends the "invalid string value" error for it. *)
Theorem Timing_mode_absent_reports_error (kvs : list (string * json)) :
  contains (JObject kvs) "mode" = false ->
  exists t errs,
    Timing.parse (timing_doc kvs) = (Some t, errs) /\
    Timing.mode t = None /\ In Timing.mode_msg errs.
Proof.
  intros Hm.
  assert (A : assignField (JObject kvs) "mode" None as_string "string" = ret None)
    by (unfold assignField; rewrite Hm; reflexivity).
  unfold Timing.parse, timing_doc.
  change (at_ (JObject [("timing", JObject kvs)]) "timing") with (JObject kvs).
  change (contains (JObject [("timing", JObject kvs)]) "timing") with true.
  cbv beta iota delta [negb is_object].
  rewrite A.
  rewrite !bind_spec; cbv beta; simpl fst; simpl snd.
  do 2 eexists; split; [reflexivity|].
  split; [reflexivity|].
  apply in_or_app; right; left; reflexivity.
Qed.

End TimingMode.

Lemma Timing_mode_any_string_internal_witness :
  "internl" <> "external" /\
  @Timing.parse SpecPrimitives.primitives (timing_doc [("mode", JString "internl")]) =
  (Some (Timing.mkTiming None (Some Timing.INTERNAL) None None None None None), []).
Proof.
  split; [discriminate|].
  apply (@Timing_mode_any_string_internal SpecPrimitives.primitives "internl").
  discriminate.
Defined.

Lemma Timing_mode_absent_reports_error_witness :
  contains (JObject [("sequenceNumber", JInt 7)]) "mode" = false /\
  exists t errs,
    @Timing.parse SpecPrimitives.primitives (timing_doc [("sequenceNumber", JInt 7)]) = (Some t, errs) /\
    Timing.mode t = None /\ In Timing.mode_msg errs.
Proof.
  split; [reflexivity|].
  apply (@Timing_mode_absent_reports_error SpecPrimitives.primitives [("sequenceNumber", JInt 7)]).
  reflexivity.
Defined.

(** ** Camera shutter angle *)

Section CameraShutter.
Context `{P : Primitives}.

Definition camera_doc (kvs : list (string * json)) : json :=
  JObject [("static", JObject [("camera", JObject kvs)])].

(** C3 (code): only the upper bound of the range 1 - 360000 is checked; a
    shutter angle below 1 that fits the [int] field is kept and no range
    error is appended. *)
Theorem Camera_shutterAngle_below_range_kept (v : Z) :
  (- 2 ^ 31 <= v)%Z -> (v < 1)%Z ->
  Camera.parse (camera_doc [("shutterAngle", JInt v)]) =
  (Some (Camera.mkCamera None None None None None None None None None None None (Some v)), []).
Proof.
  intros Hlo Hv.
  assert (E : (360000 <? v)%Z = false) by (apply Z.ltb_ge; lia).
  assert (B : as_int (JInt v) = Some v).
  { unfold as_int, as_bounded.
    replace ((- 2 ^ 31 <=? v)%Z && (v <? 2 ^ 31)%Z) with true; [reflexivity|].
    symmetry; apply andb_true_intro; split; [apply Z.leb_le | apply Z.ltb_lt]; lia. }
  unfold Camera.parse, camera_doc, assignField, assignRegexField; cbn -[as_int].
  rewrite B; cbn; rewrite E; reflexivity.
Qed.

(** The upper bound is enforced: above 360000 the angle is cleared with one
    range error, the other fields being decoded as without it. *)
Lemma Camera_shutterAngle_above_range_cleared (v : Z) :
  (360000 < v)%Z -> (v < 2 ^ 31)%Z ->
  Camera.parse (camera_doc [("make", JString "ARRI"); ("shutterAngle", JInt v)]) =
  (Some (Camera.mkCamera None None None None None (Some "ARRI") None None None None None None),
   [Camera.shutter_angle_msg]).
Proof.
  intros Hv Hhi.
  assert (E : (360000 <? v)%Z = true) by (apply Z.ltb_lt; lia).
  assert (B : as_int (JInt v) = Some v).
  { unfold as_int, as_bounded.
    replace ((- 2 ^ 31 <=? v)%Z && (v <? 2 ^ 31)%Z) with true; [reflexivity|].
    symmetry; apply andb_true_intro; split; [apply Z.leb_le | apply Z.ltb_lt]; lia. }
  unfold Camera.parse, camera_doc, assignField, assignRegexField; cbn -[as_int].
  rewrite B; cbn; rewrite E; reflexivity.
Qed.

End CameraShutter.

Lemma Camera_shutterAngle_below_range_kept_witness :
  (- 2 ^ 31 <= 0)%Z /\ (0 < 1)%Z /\
  @Camera.parse SpecPrimitives.primitives (camera_doc [("shutterAngle", JInt 0)]) =
  (Some (Camera.mkCamera None None None None None None None None None None None (Some 0%Z)), []).
Proof.
  split; [lia|]; split; [lia|].
  apply (@Camera_shutterAngle_below_range_kept SpecPrimitives.primitives 0%Z); lia.
Defined.

(** ** Protocol version *)

(** C4 (code): the version pattern's dots are unescaped, so a version with
    other separators, here ["1x2y3"], is accepted and the Protocol decoded. *)
Theorem Protocol_version_any_separator_accepted :
  Protocol.parse
    (JObject [("protocol", JObject [("name", JString "OpenTrackIO"); ("version", JString "1x2y3")])])
  = (Some (Protocol.mkProtocol "OpenTrackIO" "1x2y3"), []).
Proof. vm_compute; reflexivity. Qed.

(** The spec's own example: ["1.0"] has no third component; the Protocol is
    absent, its valid name discarded, with one pattern error. *)
Lemma Protocol_version_two_components_rejected :
  Protocol.parse
    (JObject [("protocol", JObject [("name", JString "OpenTrackIO"); ("version", JString "1.0")])])
  = (None, ["field: version doesn't match required pattern"]).
Proof. vm_compute; reflexivity. Qed.

(** ** Section presence *)

Section Presence.
Context `{P : Primitives}.

(** C8: each of the eleven decoders returns no value and appends no error
    when its anchor key (or key path) is absent from the document. *)
Theorem decoders_silent_when_anchor_absent (d : json) :
  (has_key_path d ["static"; "camera"] = false -> Camera.parse d = (None, [])) /\
  (has_key_path d ["static"; "duration"] = false -> Duration.parse d = (None, [])) /\
  (contains d "globalStage" = false -> GlobalStage.parse d = (None, [])) /\
  (contains d "lens" = false -> has_key_path d ["static"; "lens"] = false ->
     Lens.parse d = (None, [])) /\
  (contains d "protocol" = false -> Protocol.parse d = (None, [])) /\
  (contains d "relatedSampleIds" = false -> RelatedSampleIds.parse d = (None, [])) /\
  (contains d "sampleId" = false -> SampleId.parse d = (None, [])) /\
  (contains d "streamId" = false -> StreamId.parse d = (None, [])) /\
  (contains d "timing" = false -> Timing.parse d = (None, [])) /\
  (contains d "tracker" = false -> has_key_path d ["static"; "tracker"] = false ->
     Tracker.parse d = (None, [])) /\
  (contains d "transforms" = false -> Transforms.parse d = (None, [])).
Proof.
  simpl has_key_path; rewrite !andb_true_r.
  repeat split.
  - intros H; unfold Camera.parse; rewrite (absent_path _ _ H); reflexivity.
  - intros H; unfold Duration.parse; rewrite (absent_path _ _ H); reflexivity.
  - intros H; unfold GlobalStage.parse; rewrite H; reflexivity.
  - intros H H'; unfold Lens.parse; rewrite H, (absent_path _ _ H'); reflexivity.
  - intros H; unfold Protocol.parse; rewrite H; reflexivity.
  - intros H; unfold RelatedSampleIds.parse; rewrite H; reflexivity.
  - intros H; unfold SampleId.parse; rewrite H; reflexivity.
  - intros H; unfold StreamId.parse; rewrite H; reflexivity.
  - intros H; unfold Timing.parse; rewrite H; reflexivity.
  - intros H H'; unfold Tracker.parse; rewrite H, (absent_path _ _ H'); reflexivity.
  - intros H; unfold Transforms.parse; rewrite H; reflexivity.
Qed.

(** C10: when [lens] or [static.lens] is present, [Lens::parse] returns a
    Lens, and when [tracker] or [static.tracker] is, [Tracker::parse] returns
    a Tracker, whatever their sub-fields hold. *)
Theorem lens_tracker_present_with_anchor (d : json) :
  (contains d "lens" = true \/ has_key_path d ["static"; "lens"] = true ->
     exists l errs, Lens.parse d = (Some l, errs)) /\
  (contains d "tracker" = true \/ has_key_path d ["static"; "tracker"] = true ->
     exists t errs, Tracker.parse d = (Some t, errs)).
Proof.
  simpl has_key_path; rewrite !andb_true_r.
  split; intros H.
  - assert (C : negb (contains d "lens")
                && (negb (contains d "static") || negb (contains (at_ d "static") "lens")) = false).
    { destruct H as [H | H]; [rewrite H; reflexivity|].
      apply andb_true_iff in H; destruct H as [H1 H2]; rewrite H1, H2.
      apply andb_false_r. }
    unfold Lens.parse; rewrite C; cbv iota.
    apply bind_some; intros lens; apply bind_some; intros lens'.
    do 2 eexists; reflexivity.
  - assert (C : negb (contains d "tracker")
                && (negb (contains d "static") || negb (contains (at_ d "static") "tracker")) = false).
    { destruct H as [H | H]; [rewrite H; reflexivity|].
      apply andb_true_iff in H; destruct H as [H1 H2]; rewrite H1, H2.
      apply andb_false_r. }
    unfold Tracker.parse; rewrite C; cbv iota.
    apply bind_some; intros st; apply bind_some; intros sd.
    destruct st as [[[fw mk] mdl] sn], sd as [[[nt rc] sl] stt].
    do 2 eexists; reflexivity.
Qed.

End Presence.

(** ** RelatedSampleIds *)

(** An element the spec keeps: a string matching the urn:uuid pattern. *)
Definition related_id_valid (x : json) : bool :=
  match x with
  | JString s => Regex.regex_match Regex.uuid_pattern s
  | _ => false
  end.

Lemma RelatedSampleIds_loop_spec (items : list json) (acc : list string) :
  map JString (fst (RelatedSampleIds.loop items acc)) =
    (map JString acc ++ filter related_id_valid items)%list /\
  length (snd (RelatedSampleIds.loop items acc)) =
    length (filter (fun x => negb (related_id_valid x)) items).
Proof.
  revert acc; induction items as [|x rest IH]; intros acc; simpl.
  - rewrite app_nil_r; split; reflexivity.
  - assert (Skip : forall msg,
              map JString (fst (let (b, e2) := RelatedSampleIds.loop rest acc in (b, msg :: e2))) =
                (map JString acc ++ filter related_id_valid rest)%list /\
              length (snd (let (b, e2) := RelatedSampleIds.loop rest acc in (b, msg :: e2))) =
                S (length (filter (fun x => negb (related_id_valid x)) rest))).
    { intros msg; destruct (IH acc) as [H1 H2].
      destruct (RelatedSampleIds.loop rest acc) as [r e]; simpl in *.
      split; [exact H1 | rewrite H2; reflexivity]. }
    destruct x as [| b | z | q | s | l | kvs]; simpl; try apply Skip.
    destruct (Regex.regex_match Regex.uuid_pattern s) eqn:E; simpl; [|apply Skip].
    destruct (IH (acc ++ [s])%list) as [H1 H2]; split; [|exact H2].
    rewrite H1, map_app, <- app_assoc; reflexivity.
Qed.

(** C7: when [relatedSampleIds] holds an array, the decoder returns a
    sequence holding exactly the elements that are urn:uuid strings, in
    document order, and appends one error per other element. *)
Theorem RelatedSampleIds_keeps_valid_elements (d : json) (l : list json) :
  at_ d "relatedSampleIds" = JArray l ->
  exists samples errs,
    RelatedSampleIds.parse d = (Some (RelatedSampleIds.mkRelatedSampleIds samples), errs) /\
    map JString samples = filter related_id_valid l /\
    length errs = length (filter (fun x => negb (related_id_valid x)) l).
Proof.
  intros H.
  assert (C : contains d "relatedSampleIds" = true).
  { destruct d; simpl in *; try discriminate.
    destruct (lookup "relatedSampleIds" kvs); [reflexivity | discriminate]. }
  unfold RelatedSampleIds.parse; rewrite C, H; cbv beta iota delta [negb is_array].
  destruct (RelatedSampleIds_loop_spec l []) as [H1 H2].
  rewrite bind_spec; simpl.
  exists (fst (RelatedSampleIds.loop l [])), (snd (RelatedSampleIds.loop l []) ++ [])%list.
  split; [reflexivity|].
  split; [exact H1 | rewrite app_nil_r; exact H2].
Qed.

Definition related_ids_doc : json :=
  JObject [("relatedSampleIds",
            JArray [JString "urn:uuid:12345678-1234-1234-1234-123456789abc";
                    JString "bad-id";
                    JString "urn:uuid:0a1b2c3d-4e5f-6071-8293-a4b5c6d7e8f9"])].

Lemma RelatedSampleIds_keeps_valid_elements_witness :
  at_ related_ids_doc "relatedSampleIds" =
    JArray [JString "urn:uuid:12345678-1234-1234-1234-123456789abc";
            JString "bad-id";
            JString "urn:uuid:0a1b2c3d-4e5f-6071-8293-a4b5c6d7e8f9"] /\
  exists samples errs,
    RelatedSampleIds.parse related_ids_doc =
      (Some (RelatedSampleIds.mkRelatedSampleIds samples), errs) /\
    map JString samples =
      filter related_id_valid
        [JString "urn:uuid:12345678-1234-1234-1234-123456789abc";
         JString "bad-id";
         JString "urn:uuid:0a1b2c3d-4e5f-6071-8293-a4b5c6d7e8f9"] /\
    length errs =
      length (filter (fun x => negb (related_id_valid x))
        [JString "urn:uuid:12345678-1234-1234-1234-123456789abc";
         JString "bad-id";
         JString "urn:uuid:0a1b2c3d-4e5f-6071-8293-a4b5c6d7e8f9"]).
Proof.
  split; [reflexivity|].
  apply RelatedSampleIds_keeps_valid_elements; reflexivity.
Defined.

(** The spec's example: the two valid ids are kept and one pattern error is
    reported for ["bad-id"]. *)
Example RelatedSampleIds_spec_example :
  RelatedSampleIds.parse related_ids_doc =
  (Some (RelatedSampleIds.mkRelatedSampleIds
           ["urn:uuid:12345678-1234-1234-1234-123456789abc";
            "urn:uuid:0a1b2c3d-4e5f-6071-8293-a4b5c6d7e8f9"]),
   [RelatedSampleIds.pattern_msg]).
Proof. vm_compute; reflexivity. Qed.

(** ** Optional groups *)

Section Groups.
Context `{P : Primitives}.

(** The [radial] anchor of the Lens group [g] ([distortion] or
    [undistortion]) is present and valid in the document. *)
Definition lens_anchor_valid (d : json) (g : string) : bool :=
  contains d "lens" && contains (at_ d "lens") g &&
  member_valid (at_ (at_ d "lens") g) "radial" as_double_array.

Ltac case_members :=
  repeat (cbv beta iota;
          match goal with
          | |- context [contains ?g ?k] => destruct (contains g k)
          | |- context [?conv (at_ ?g ?k)] =>
              lazymatch type of (conv (at_ g k)) with
              | option _ => destruct (conv (at_ g k))
              end
          | |- context [Regex.regex_match ?p ?s] => destruct (Regex.regex_match p s)
          | |- context [match ?c with Some _ => _ | None => _ end] => destruct c
          end);
  reflexivity.

Lemma radialGroup_value (gj : json) :
  has_value (fst (Lens.radialGroup gj)) = member_valid gj "radial" as_double_array.
Proof.
  unfold Lens.radialGroup, member_valid; fst_chain.
  rewrite !fst_assignField; case_members.
Qed.

Lemma staticFields_groups (lj : json) (lens : Lens.Lens) :
  Lens.distortion (fst (Lens.staticFields lj lens)) = Lens.distortion lens /\
  Lens.undistortion (fst (Lens.staticFields lj lens)) = Lens.undistortion lens.
Proof. unfold Lens.staticFields; fst_chain; split; reflexivity. Qed.

Lemma standardFields_groups (lj : json) (lens : Lens.Lens) :
  has_value (Lens.distortion (fst (Lens.standardFields lj lens))) =
    (if contains lj "distortion"
     then member_valid (at_ lj "distortion") "radial" as_double_array
     else false) || has_value (Lens.distortion lens) /\
  has_value (Lens.undistortion (fst (Lens.standardFields lj lens))) =
    (if contains lj "undistortion"
     then member_valid (at_ lj "undistortion") "radial" as_double_array
     else false) || has_value (Lens.undistortion lens).
Proof.
  unfold Lens.standardFields; fst_chain; cbn [fst Lens.distortion Lens.undistortion ret].
  split.
  - destruct (contains lj "distortion"); [|reflexivity].
    rewrite fst_bind; cbv beta; rewrite <- radialGroup_value.
    destruct (fst (Lens.radialGroup _)) as [[r t]|]; simpl; [reflexivity|].
    destruct (Lens.distortion lens); reflexivity.
  - destruct (contains lj "undistortion"); [|reflexivity].
    rewrite fst_bind; cbv beta; rewrite <- radialGroup_value.
    destruct (fst (Lens.radialGroup _)) as [[r t]|]; simpl; [reflexivity|].
    destruct (Lens.undistortion lens); reflexivity.
Qed.

(** [Lens::parse]: [distortion] and [undistortion] are there exactly when
    their [radial] member is present and valid. *)
Lemma Lens_radial_groups (d : json) (l : Lens.Lens) (errs : list string) :
  Lens.parse d = (Some l, errs) ->
  has_value (Lens.distortion l) = lens_anchor_valid d "distortion" /\
  has_value (Lens.undistortion l) = lens_anchor_valid d "undistortion".
Proof.
  intros H; apply (f_equal fst) in H; unfold Lens.parse in H.
  destruct (negb (contains d "lens") && _); [discriminate|].
  remember (if contains d "static" && contains (at_ d "static") "lens"
            then Lens.staticFields (at_ (at_ d "static") "lens") Lens.empty
            else ret Lens.empty) as st eqn:Est.
  fst_chain_in H; cbn [fst ret] in H; injection H as <-.
  assert (S0 : Lens.distortion (fst st) = None /\ Lens.undistortion (fst st) = None).
  { subst st; destruct (_ && _); [apply staticFields_groups | split; reflexivity]. }
  destruct S0 as [S1 S2].
  unfold lens_anchor_valid.
  destruct (contains d "lens"); cbn [fst ret andb].
  - destruct (standardFields_groups (at_ d "lens") (fst st)) as [G1 G2].
    rewrite G1, G2, S1, S2.
    split; destruct (contains (at_ d "lens") _); cbn [andb orb has_value];
      rewrite ?orb_false_r; reflexivity.
  - rewrite S1, S2; split; reflexivity.
Qed.

(** At least one member of [synchronization.offsets] is present and valid. *)
Definition offsets_any_valid (sj : json) : bool :=
  let oj := at_ sj "offsets" in
  contains sj "offsets" &&
  (member_valid oj "translation" as_double || member_valid oj "rotation" as_double ||
   member_valid oj "lensEncoders" as_double).

(** At least one member of [synchronization.ptp] is present and valid. *)
Definition ptp_any_valid (sj : json) : bool :=
  let pj := at_ sj "ptp" in
  contains sj "ptp" &&
  (member_valid pj "domain" as_uint16 || member_valid pj "offset" as_double ||
   regex_member_valid pj "master" Regex.mac_pattern).

(** [Timing::parseSynchronization]: [offsets] and [ptp] are there exactly
    when one of their members is present and valid. *)
Lemma Synchronization_any_member_groups (sj : json) (s : Timing.Synchronization)
  (errs : list string) :
  Timing.parseSynchronization sj = (Some s, errs) ->
  has_value (Timing.offsets s) = offsets_any_valid sj /\
  has_value (Timing.ptp s) = ptp_any_valid sj.
Proof.
  intros H; apply (f_equal fst) in H; unfold Timing.parseSynchronization in H; cbv zeta in H.
  destruct (negb (_ && _ && _)); [cbn in H; discriminate|].
  rewrite fst_bind in H; cbv beta in H.
  destruct (fst (Rational_parse _)) as [f|]; [|cbn in H; discriminate].
  destruct (as_bool _) as [lk|]; [|cbn in H; discriminate].
  destruct (as_string _) as [str|]; [|cbn in H; discriminate].
  rewrite fst_bind in H; cbv beta in H.
  match type of H with
  | context [match fst ?src_piece with Some _ => _ | None => _ end] =>
      destruct (fst src_piece) as [src|]; [|cbn in H; discriminate]
  end.
  fst_chain_in H; cbn [fst ret] in H; injection H as <-; cbn [Timing.offsets Timing.ptp].
  unfold offsets_any_valid, ptp_any_valid; cbv zeta.
  split; (destruct (contains sj _); [|reflexivity]); fst_chain;
    rewrite ?fst_assignField, ?fst_assignRegexField;
    unfold member_valid, regex_member_valid; case_members.
Qed.

(** C5: the collapse rules of the optional groups. In Lens, [distortion]
    and [undistortion] are materialized exactly when [radial] is present and
    valid, whatever [tangential] holds; in Synchronization, [offsets] and
    [ptp] are materialized exactly when at least one of their members is
    present and valid, and are absent otherwise, error or not. *)
Theorem optional_groups_collapse :
  (forall d l errs, Lens.parse d = (Some l, errs) ->
     has_value (Lens.distortion l) = lens_anchor_valid d "distortion" /\
     has_value (Lens.undistortion l) = lens_anchor_valid d "undistortion") /\
  (forall sj s errs, Timing.parseSynchronization sj = (Some s, errs) ->
     has_value (Timing.offsets s) = offsets_any_valid sj /\
     has_value (Timing.ptp s) = ptp_any_valid sj).
Proof. split; [exact Lens_radial_groups | exact Synchronization_any_member_groups]. Qed.

End Groups.

(** ** Synchronization missing a required field *)

Section SyncRequired.
Context `{P : Primitives}.

Definition sync_has_required (sj : json) : bool :=
  contains sj "frequency" && contains sj "locked" && contains sj "source".

Lemma parseSynchronization_missing (sj : json) :
  sync_has_required sj = false ->
  Timing.parseSynchronization sj = (None, [Timing.sync_missing_msg]).
Proof. intros H; unfold Timing.parseSynchronization, sync_has_required in *; rewrite H; reflexivity. Qed.

(** C6: a [timing.synchronization] section missing [frequency], [locked] or
    [source] leaves the Synchronization absent with one missing-required-field
    error, and every other Timing field is decoded as it is from the same
    timing section without [synchronization]. *)
Theorem Timing_sync_missing_required (d : json) (kvs : list (string * json)) :
  at_ d "timing" = JObject kvs ->
  contains (JObject kvs) "synchronization" = true ->
  sync_has_required (at_ (JObject kvs) "synchronization") = false ->
  exists t e1 e2,
    Timing.parse d = (Some t, e1 ++ [Timing.sync_missing_msg] ++ e2)%list /\
    Timing.parse (timing_doc (remove_key "synchronization" kvs)) = (Some t, e1 ++ e2)%list /\
    Timing.synchronization t = None.
Proof.
  intros Ht Hc Hr.
  pose proof (contains_at_object _ _ _ Ht) as Hd.
  unfold Timing.parse, timing_doc.
  rewrite Hd, Ht.
  change (at_ (JObject [("timing", JObject (remove_key "synchronization" kvs))]) "timing")
    with (JObject (remove_key "synchronization" kvs)).
  change (contains (JObject [("timing", JObject (remove_key "synchronization" kvs))]) "timing")
    with true.
  cbv beta iota delta [negb is_object].
  rewrite contains_remove_same, Hc; cbv iota.
  rewrite parseSynchronization_missing by exact Hr.
  rewrite !contains_remove_neq by discriminate.
  rewrite !at_remove_neq by discriminate.
  rewrite !assignField_remove_neq by discriminate.
  cbv delta [ret] beta.
  run_binds.
  cbv beta iota.
  exists (Timing.mkTiming v v1 v2 v3 v4 None v5),  (e ++ e0 ++ e1 ++ e2 ++ e3 ++ e4)%list, (e5 ++ [])%list.
  split; [|split; [|reflexivity]]; f_equal; rewrite <- ?app_assoc; reflexivity.
Qed.

End SyncRequired.

(** ** Witnesses on concrete documents *)

Definition sync_missing_locked_kvs : list (string * json) :=
  [("mode", JString "external");
   ("sequenceNumber", JInt 12);
   ("synchronization", JObject [("frequency", JObject [("num", JInt 24); ("denom", JInt 1)]);
                                ("source", JString "ptp")])].

Lemma Timing_sync_missing_required_witness :
  at_ (timing_doc sync_missing_locked_kvs) "timing" = JObject sync_missing_locked_kvs /\
  contains (JObject sync_missing_locked_kvs) "synchronization" = true /\
  sync_has_required (at_ (JObject sync_missing_locked_kvs) "synchronization") = false /\
  exists t e1 e2,
    @Timing.parse SpecPrimitives.primitives (timing_doc sync_missing_locked_kvs) =
      (Some t, e1 ++ [Timing.sync_missing_msg] ++ e2)%list /\
    @Timing.parse SpecPrimitives.primitives
      (timing_doc (remove_key "synchronization" sync_missing_locked_kvs)) = (Some t, e1 ++ e2)%list /\
    Timing.synchronization t = None.
Proof.
  split; [reflexivity|]; split; [reflexivity|]; split; [reflexivity|].
  apply (@Timing_sync_missing_required SpecPrimitives.primitives); reflexivity.
Defined.

Definition lens_doc : json :=
  JObject [("lens", JObject [("distortion", JObject [("radial", JArray [JInt 1; JFloat (1 # 2)]);
                                                     ("tangential", JString "bad")]);
                             ("undistortion", JObject [("tangential", JArray [JInt 0])])])].

Lemma optional_groups_collapse_witness :
  exists l errs,
    @Lens.parse SpecPrimitives.primitives lens_doc = (Some l, errs) /\
    has_value (Lens.distortion l) = true /\
    has_value (Lens.undistortion l) = false /\
    has_value (Lens.distortion l) = lens_anchor_valid lens_doc "distortion" /\
    has_value (Lens.undistortion l) = lens_anchor_valid lens_doc "undistortion".
Proof.
  do 2 eexists; split; [reflexivity|].
  split; [reflexivity|]; split; [reflexivity|].
  apply (proj1 (@optional_groups_collapse SpecPrimitives.primitives) lens_doc _ _ eq_refl).
Defined.

Lemma decoders_silent_when_anchor_absent_witness :
  has_key_path (JObject [("lens", JNull)]) ["static"; "camera"] = false /\
  @Camera.parse SpecPrimitives.primitives (JObject [("lens", JNull)]) = (None, []).
Proof.
  split; [reflexivity|].
  apply (proj1 (@decoders_silent_when_anchor_absent SpecPrimitives.primitives
                  (JObject [("lens", JNull)]))).
  reflexivity.
Defined.

Lemma lens_tracker_present_with_anchor_witness :
  contains (JObject [("tracker", JObject [("recording", JString "yes")])]) "tracker" = true /\
  exists t errs,
    Tracker.parse
      (JObject [("tracker", JObject [("recording", JString "yes")])]) = (Some t, errs).
Proof.
  split; [reflexivity|].
  apply (proj2 (@lens_tracker_present_with_anchor SpecPrimitives.primitives
                  (JObject [("tracker", JObject [("recording", JString "yes")])]))).
  left; reflexivity.
Defined.


(** ** Further properties of the decoders *)

Lemma at_absent (j : json) (k : string) : contains j k = false -> at_ j k = JNull.
Proof. destruct j; simpl; try reflexivity. destruct (lookup k kvs); [discriminate | reflexivity]. Qed.

Lemma at_present (j : json) (k : string) : at_ j k <> JNull -> contains j k = true.
Proof. intros H; destruct (contains j k) eqn:E; [reflexivity|]. rewrite (at_absent _ _ E) in H; congruence. Qed.

Lemma at_at_present (d : json) (a b : string) :
  at_ (at_ d a) b <> JNull -> contains d a = true /\ contains (at_ d a) b = true.
Proof.
  intros H; split; apply at_present; [|exact H].
  intros E; rewrite E in H; apply H; reflexivity.
Qed.

Lemma assignRegexField_remove_neq (k f : string) (kvs : list (string * json))
  (t : option string) (p : Regex.regex) :
  k <> f ->
  assignRegexField (JObject (remove_key k kvs)) f t p = assignRegexField (JObject kvs) f t p.
Proof.
  intros H; unfold assignRegexField; rewrite contains_remove_neq, at_remove_neq by exact H;
  reflexivity.
Qed.

(** Running a chain of binds, rewriting with [E] whenever a step exposes it. *)
Ltac run_binds_with E :=
  repeat progress (cbv delta [ret emplace_back] beta iota; rewrite ?bind_pair; cbv beta iota;
          rewrite ?E;
          try match goal with
          | |- context [bind ?m _] =>
              lazymatch m with
              | (_, _) => fail
              | _ => let v := fresh "v" in let e := fresh "e" in destruct m as [v e]
              end
          end).

Section CameraRange.
Context `{P : Primitives}.

(** [Camera::parse] never returns a shutter angle above 360000. *)
Theorem Camera_shutterAngle_at_most_360000 (d : json) (c : Camera.Camera)
  (errs : list string) (v : Z) :
  Camera.parse d = (Some c, errs) -> Camera.shutterAngle c = Some v -> (v <= 360000)%Z.
Proof.
  intros H Hv; apply (f_equal fst) in H; unfold Camera.parse in H.
  destruct (_ || _); [discriminate|].
  destruct (negb _); [cbn in H; discriminate|].
  fst_chain_in H; cbn [fst ret] in H; injection H as <-; cbn [Camera.shutterAngle] in Hv.
  destruct (fst (assignField _ "shutterAngle" _ _ _)) as [w|]; [|discriminate].
  destruct (360000 <? w)%Z eqn:E; cbn in Hv; [discriminate|].
  injection Hv as <-; apply Z.ltb_ge in E; exact E.
Qed.

(** An out-of-range shutter angle (above 360000, within the [int] field)
    only costs the shutter angle: the Camera is the one decoded from the same
    section without [shutterAngle], and the one range error is appended
    last. *)
Theorem Camera_shutterAngle_above_range_only_clears_it (d : json)
  (kvs : list (string * json)) (v : Z) :
  at_ (at_ d "static") "camera" = JObject kvs ->
  at_ (JObject kvs) "shutterAngle" = JInt v ->
  (360000 < v)%Z -> (v < 2 ^ 31)%Z ->
  exists c errs,
    Camera.parse d = (Some c, errs ++ [Camera.shutter_angle_msg])%list /\
    Camera.parse (camera_doc (remove_key "shutterAngle" kvs)) = (Some c, errs) /\
    Camera.shutterAngle c = None.
Proof.
  intros Hc Hs Hv Hhi.
  destruct (at_at_present d "static" "camera") as [H1 H2]; [rewrite Hc; discriminate|].
  assert (E : (360000 <? v)%Z = true) by (apply Z.ltb_lt; exact Hv).
  assert (I : as_int (JInt v) = Some v).
  { unfold as_int, as_bounded.
    replace ((- 2 ^ 31 <=? v)%Z && (v <? 2 ^ 31)%Z) with true; [reflexivity|].
    symmetry; apply andb_true_intro; split; [apply Z.leb_le | apply Z.ltb_lt]; lia. }
  assert (A : assignField (JObject kvs) "shutterAngle" None as_int "integer" = ret (Some v)).
  { unfold assignField; rewrite at_present by (rewrite Hs; discriminate).
    rewrite Hs, I; reflexivity. }
  assert (B : assignField (JObject (remove_key "shutterAngle" kvs)) "shutterAngle" None
                as_int "integer" = ret None).
  { unfold assignField; rewrite contains_remove_same; reflexivity. }
  unfold Camera.parse, camera_doc.
  rewrite H1, H2, Hc.
  change (at_ (at_ (JObject [("static", JObject [("camera",
            JObject (remove_key "shutterAngle" kvs))])]) "static") "camera")
    with (JObject (remove_key "shutterAngle" kvs)).
  change (contains (JObject [("static", JObject [("camera",
            JObject (remove_key "shutterAngle" kvs))])]) "static") with true.
  change (contains (at_ (JObject [("static", JObject [("camera",
            JObject (remove_key "shutterAngle" kvs))])]) "static") "camera") with true.
  cbv beta iota delta [negb is_object orb].
  rewrite B, A.
  rewrite !contains_remove_neq by discriminate.
  rewrite !at_remove_neq by discriminate.
  rewrite !assignField_remove_neq by discriminate.
  rewrite !assignRegexField_remove_neq by discriminate.
  run_binds_with E.
  do 2 eexists; split; [|split; reflexivity].
  rewrite ?app_nil_r, <- ?app_assoc; reflexivity.
Qed.

End CameraRange.

(** ** GlobalStage *)

Definition globalStage_fields : list string := ["E"; "N"; "U"; "lat0"; "lon0"; "h0"].

(** Every [globalStage] member is present and a number. *)
Definition globalStage_valid (gj : json) : bool :=
  forallb (fun k => member_valid gj k as_double) globalStage_fields.

Lemma fieldCheckAndAssign_cases (gj : json) (k : string) :
  (member_valid gj k as_double = true /\ exists q, GlobalStage.fieldCheckAndAssign gj k = (Some q, [])) \/
  (member_valid gj k as_double = false /\ exists m, GlobalStage.fieldCheckAndAssign gj k = (None, [m])).
Proof.
  unfold GlobalStage.fieldCheckAndAssign, member_valid.
  destruct (contains gj k); cbn [negb andb].
  - destruct (as_double (at_ gj k)) as [q|]; cbn [has_value].
    + left; split; [reflexivity | exists q; reflexivity].
    + right; split; [reflexivity | eexists; reflexivity].
  - right; split; [reflexivity | eexists; reflexivity].
Qed.

(** [GlobalStage::parse] on an object section: a GlobalStage exactly when
    all six members are present numbers; otherwise the [&&] chain stops at
    the first failing member, so exactly one error is appended, and none
    when the GlobalStage is returned. *)
Theorem GlobalStage_all_or_first_error (d : json) :
  is_object (at_ d "globalStage") = true ->
  has_value (fst (GlobalStage.parse d)) = globalStage_valid (at_ d "globalStage") /\
  length (snd (GlobalStage.parse d)) = if globalStage_valid (at_ d "globalStage") then 0%nat else 1%nat.
Proof.
  intros Ho.
  assert (C : contains d "globalStage" = true)
    by (apply at_present; intros E; rewrite E in Ho; discriminate).
  unfold GlobalStage.parse, globalStage_valid, globalStage_fields; rewrite C, Ho.
  cbv beta iota zeta delta [negb]; cbn [forallb].
  repeat (match goal with
          | |- context [GlobalStage.fieldCheckAndAssign ?g ?k] =>
              let Hm := fresh "Hm" in let Hf := fresh "Hf" in
              destruct (fieldCheckAndAssign_cases g k) as [[Hm [? Hf]] | [Hm [? Hf]]];
              rewrite Hf, Hm; cbn [bind ret andb]
          end).
  all: split; reflexivity.
Qed.

(** ** Duration *)

(** [Duration::parse] on an object section always appends the "missing
    required fields" error last, and returns no Duration. *)
Theorem Duration_object_reports_missing (d : json) :
  has_key_path d ["static"; "duration"] = true ->
  is_object (at_ (at_ d "static") "duration") = true ->
  exists errs, Duration.parse d = (None, errs ++ [Duration.missing_msg])%list.
Proof.
  intros Hp Ho; cbn [has_key_path] in Hp; rewrite andb_true_r in Hp.
  apply andb_true_iff in Hp; destruct Hp as [H1 H2].
  unfold Duration.parse; rewrite H1, H2, Ho; cbv beta iota zeta delta [negb orb].
  destruct (assignField _ "num" _ _ _) as [n e1]; rewrite bind_pair; cbv beta.
  destruct (assignField _ "denom" _ _ _) as [n' e2]; rewrite bind_pair; cbv beta iota.
  exists (e1 ++ e2)%list.
  destruct n'; cbn [bind emplace_back ret]; rewrite app_nil_r, <- app_assoc; reflexivity.
Qed.

(** ** SampleId and StreamId *)

Lemma assignRegexField_empty_target (j : json) (f : string) (p : Regex.regex) :
  (forall s errs, assignRegexField j f None p = (Some s, errs) <->
     at_ j f = JString s /\ Regex.regex_match p s = true /\ errs = []) /\
  (forall errs, assignRegexField j f None p = (None, errs) ->
     length errs = if contains j f then 1%nat else 0%nat).
Proof.
  unfold assignRegexField; destruct (contains j f) eqn:C.
  - destruct (at_ j f) eqn:A; cbn [as_string bind emplace_back ret List.app length];
      try (split; [intros s errs; split; [discriminate | intros [H _]; discriminate]
                  | intros errs H; injection H as <-; reflexivity]).
    destruct (Regex.regex_match p s) eqn:R; cbn [bind emplace_back ret List.app length].
    + split.
      * intros s' errs; split.
        -- intros H; injection H as <- <-; split; [reflexivity | split; [exact R | reflexivity]].
        -- intros (H1 & H2 & ->); injection H1 as <-; reflexivity.
      * intros errs H; discriminate.
    + split.
      * intros s' errs; split; [discriminate|].
        intros (H1 & H2 & _); injection H1 as <-; congruence.
      * intros errs H; injection H as <-; reflexivity.
  - rewrite (at_absent _ _ C); cbn [ret]; split.
    + intros s errs; split; [discriminate | intros [H _]; discriminate].
    + intros errs H; injection H as <-; reflexivity.
Qed.

(** [SampleId::parse] and [StreamId::parse] return a value exactly when the
    member is a string matching the urn:uuid pattern, holding that string,
    and then append no error; when they return none with the member
    present, they append exactly one error. *)
Theorem SampleId_StreamId_contract (d : json) :
  (forall x errs, SampleId.parse d = (Some x, errs) <->
     at_ d "sampleId" = JString (SampleId.value x) /\
     Regex.regex_match Regex.uuid_pattern (SampleId.value x) = true /\ errs = []) /\
  (forall errs, SampleId.parse d = (None, errs) ->
     length errs = if contains d "sampleId" then 1%nat else 0%nat) /\
  (forall x errs, StreamId.parse d = (Some x, errs) <->
     at_ d "streamId" = JString (StreamId.value x) /\
     Regex.regex_match Regex.uuid_pattern (StreamId.value x) = true /\ errs = []) /\
  (forall errs, StreamId.parse d = (None, errs) ->
     length errs = if contains d "streamId" then 1%nat else 0%nat).
Proof.
  destruct (assignRegexField_empty_target d "sampleId" Regex.uuid_pattern) as [S1 S2].
  destruct (assignRegexField_empty_target d "streamId" Regex.uuid_pattern) as [T1 T2].
  unfold SampleId.parse, StreamId.parse.
  split; [|split; [|split]].
  - intros [x] errs; cbn [SampleId.value]; rewrite <- (S1 x errs).
    destruct (contains d "sampleId") eqn:C; cbn [negb].
    + destruct (assignRegexField d "sampleId" None Regex.uuid_pattern) as [[s|] e]; cbn [bind ret];
        rewrite ?app_nil_r; split; intros H; inversion H; subst; reflexivity.
    + unfold assignRegexField; rewrite C; split; discriminate.
  - intros errs; destruct (contains d "sampleId") eqn:C; cbn [negb].
    + destruct (assignRegexField d "sampleId" None Regex.uuid_pattern) as [[s|] e]; cbn [bind ret]; intros H;
        [discriminate H | injection H as <-; rewrite app_nil_r; apply (S2 e); reflexivity].
    + intros H; injection H as <-; reflexivity.
  - intros [x] errs; cbn [StreamId.value]; rewrite <- (T1 x errs).
    destruct (contains d "streamId") eqn:C; cbn [negb].
    + destruct (assignRegexField d "streamId" None Regex.uuid_pattern) as [[s|] e]; cbn [bind ret];
        rewrite ?app_nil_r; split; intros H; inversion H; subst; reflexivity.
    + unfold assignRegexField; rewrite C; split; discriminate.
  - intros errs; destruct (contains d "streamId") eqn:C; cbn [negb].
    + destruct (assignRegexField d "streamId" None Regex.uuid_pattern) as [[s|] e]; cbn [bind ret]; intros H;
        [discriminate H | injection H as <-; rewrite app_nil_r; apply (T2 e); reflexivity].
    + intros H; injection H as <-; reflexivity.
Qed.

(** ** Protocol *)

(** [Protocol::parse] returns a Protocol exactly when [protocol.name] is a
    string and [protocol.version] a string matching the version pattern,
    holding those two strings, and then appends no error. *)
Theorem Protocol_parse_contract (d : json) (p : Protocol.Protocol) (errs : list string) :
  Protocol.parse d = (Some p, errs) <->
  at_ (at_ d "protocol") "name" = JString (Protocol.name p) /\
  at_ (at_ d "protocol") "version" = JString (Protocol.version p) /\
  Regex.regex_match Regex.version_pattern (Protocol.version p) = true /\ errs = [].
Proof.
  destruct p as [nm v]; cbn [Protocol.name Protocol.version].
  unfold Protocol.parse.
  destruct (contains d "protocol") eqn:C.
  2: { rewrite (at_absent _ _ C); cbn; split; [discriminate | intros [H _]; discriminate]. }
  cbv beta iota zeta delta [negb].
  destruct (at_ (at_ d "protocol") "name") eqn:N; cbn [as_string bind emplace_back ret];
    try (split; [discriminate | intros [H _]; discriminate]).
  destruct (assignRegexField_empty_target (at_ d "protocol") "version" Regex.version_pattern)
    as [R1 _].
  destruct (assignRegexField (at_ d "protocol") "version" None Regex.version_pattern)
    as [[vs|] e]; cbn [bind ret]; rewrite app_nil_r.
  - destruct (proj1 (R1 vs e) eq_refl) as (Hv & Hr & ->).
    split.
    + intros H; inversion H; subst; auto.
    + intros (Hn & Hv' & _ & ->); injection Hn as <-; rewrite Hv in Hv'; injection Hv' as <-.
      reflexivity.
  - split; [discriminate|].
    intros (_ & Hv & Hr & _).
    assert (H : (None, e) = (Some v, @nil string)) by (apply R1; auto).
    discriminate H.
Qed.

(** A [protocol] section whose [name] is a string but which has no
    [version] member is dropped without any error: [assignRegexField] is
    silent on an absent member and the Protocol is not built. *)
Theorem Protocol_missing_version_silent (d : json) (s : string) :
  at_ (at_ d "protocol") "name" = JString s ->
  contains (at_ d "protocol") "version" = false ->
  Protocol.parse d = (None, []).
Proof.
  intros Hn Hv.
  assert (C : contains d "protocol" = true).
  { apply at_present; intros E; rewrite E in Hn; discriminate. }
  unfold Protocol.parse, assignRegexField; rewrite C, Hn, Hv; reflexivity.
Qed.

(** ** Sections of the wrong JSON kind *)

(** A present section of the wrong kind (not an object, or for
    [relatedSampleIds] and [transforms] not an array) yields no value and
    exactly one type error. *)
Theorem sections_wrong_kind_one_error `{P : Primitives} (d : json) :
  (has_key_path d ["static"; "camera"] = true ->
     is_object (at_ (at_ d "static") "camera") = false ->
     Camera.parse d = (None, ["field: camera isn't of type: object"])) /\
  (has_key_path d ["static"; "duration"] = true ->
     is_object (at_ (at_ d "static") "duration") = false ->
     Duration.parse d = (None, ["field: duration isn't of type: object"])) /\
  (contains d "globalStage" = true -> is_object (at_ d "globalStage") = false ->
     GlobalStage.parse d = (None, ["field: globalStage isn't of type: object"])) /\
  (contains d "relatedSampleIds" = true -> is_array (at_ d "relatedSampleIds") = false ->
     RelatedSampleIds.parse d = (None, ["field: relatedSampleIds isn't of type: array"])) /\
  (contains d "timing" = true -> is_object (at_ d "timing") = false ->
     Timing.parse d = (None, ["field: timing isn't of type: object"])) /\
  (contains d "transforms" = true -> is_array (at_ d "transforms") = false ->
     Transforms.parse d = (None, ["Transforms is not an array."])).
Proof.
  cbn [has_key_path]; rewrite !andb_true_r.
  repeat split; intros H Hk;
    try (apply andb_true_iff in H; destruct H as [H H']);
    unfold Camera.parse, Duration.parse, GlobalStage.parse, RelatedSampleIds.parse,
      Timing.parse, Transforms.parse;
    rewrite ?H, ?H', Hk; reflexivity.
Qed.

(** ** Transforms *)

Section TransformsLoop.
Context `{P : Primitives}.

Definition opt_list {A} (o : option A) : list A :=
  match o with Some a => [a] | None => [] end.

Lemma Transforms_loop_spec (items : list json) (acc : list Transform) :
  Transforms.loop items acc =
  ((acc ++ flat_map (fun x => opt_list (fst (Transform_parse x))) items)%list,
   flat_map (fun x => snd (Transform_parse x)) items).
Proof.
  revert acc; induction items as [|x rest IH]; intros acc; cbn [Transforms.loop flat_map].
  - unfold ret; f_equal; symmetry; apply app_nil_r.
  - destruct (Transform_parse x) as [[t|] e]; cbn [bind fst snd opt_list]; rewrite IH.
    + f_equal; rewrite <- app_assoc; reflexivity.
    + f_equal; apply app_nil_r.
Qed.

(** When [transforms] holds an array, [Transforms::parse] returns the
    transforms [Transform::parse] accepts, in document order, and the errors
    it appends are those of the element parsers, in order: a rejected
    element is skipped, never fatal. *)
Theorem Transforms_keeps_accepted_entries (d : json) (l : list json) :
  at_ d "transforms" = JArray l ->
  Transforms.parse d =
  (Some (Transforms.mkTransforms (flat_map (fun x => opt_list (fst (Transform_parse x))) l)),
   flat_map (fun x => snd (Transform_parse x)) l).
Proof.
  intros H.
  assert (C : contains d "transforms" = true) by (apply at_present; rewrite H; discriminate).
  unfold Transforms.parse; rewrite C, H; cbv beta iota zeta delta [negb is_array].
  rewrite Transforms_loop_spec; cbn [bind ret List.app]; rewrite !app_nil_r; reflexivity.
Qed.

End TransformsLoop.

(** ** Synchronization *)

Section Sync.
Context `{P : Primitives}.

(** The [source] strings of [Timing::parseSynchronization]. *)
Definition source_name (s : Timing.SourceType) : string :=
  match s with
  | Timing.GEN_LOCK => "genlock"
  | Timing.VIDEO_IN => "videoIn"
  | Timing.PTP => "ptp"
  | Timing.NTP => "ntp"
  end.

(** A Synchronization returned by [Timing::parseSynchronization] has all
    three required members: its frequency is what [Rational::parse] made of
    [frequency], [locked] is the document's boolean, and [source] is the
    enumerator whose string the document holds. *)
Theorem parseSynchronization_required_fields (sj : json) (s : Timing.Synchronization)
  (errs : list string) :
  Timing.parseSynchronization sj = (Some s, errs) ->
  sync_has_required sj = true /\
  fst (Rational_parse (at_ sj "frequency")) = Some (Timing.frequency s) /\
  at_ sj "locked" = JBool (Timing.locked s) /\
  at_ sj "source" = JString (source_name (Timing.source s)).
Proof.
  intros H; apply (f_equal fst) in H; unfold Timing.parseSynchronization, sync_has_required in *;
    cbv zeta in H.
  destruct (contains sj "frequency" && contains sj "locked" && contains sj "source");
    [|cbn in H; discriminate].
  cbv beta iota delta [negb] in H; rewrite fst_bind in H; cbv beta in H.
  destruct (fst (Rational_parse _)) as [f|]; [|cbn in H; discriminate].
  destruct (at_ sj "locked") as [| lk | | | | |]; cbn [as_bool] in H; try (cbn in H; discriminate).
  destruct (at_ sj "source") as [| | | | str | |]; cbn [as_string] in H;
    try (cbn in H; discriminate).
  rewrite fst_bind in H; cbv beta in H.
  repeat (match type of H with
          | context [String.eqb ?a ?b] =>
              let G := fresh "G" in destruct (String.eqb a b) eqn:G; cbv iota in H
          end).
  all: fst_chain_in H; cbn [fst ret emplace_back] in H; fst_chain_in H;
    cbn [fst ret emplace_back] in H; try discriminate.
  all: injection H as <-; cbn [Timing.frequency Timing.locked Timing.source source_name].
  all: repeat split.
  all: match goal with G : String.eqb _ _ = true |- _ => apply String.eqb_eq in G; subst; reflexivity end.
Qed.

(** A rejected Synchronization costs exactly one error of its own: the
    missing-fields error alone when a required key is absent; otherwise,
    once [Rational::parse] has run on [frequency], its errors followed by
    one error. No optional member is read, so none of their errors is
    reported. *)
Theorem parseSynchronization_rejection_one_error (sj : json) (errs : list string) :
  Timing.parseSynchronization sj = (None, errs) ->
  (sync_has_required sj = false /\ errs = [Timing.sync_missing_msg]) \/
  (sync_has_required sj = true /\
   exists m, errs = (snd (Rational_parse (at_ sj "frequency")) ++ [m])%list).
Proof.
  intros H; unfold Timing.parseSynchronization in H; cbv zeta in H.
  unfold sync_has_required.
  destruct (contains sj "frequency" && contains sj "locked" && contains sj "source");
    cbn [negb] in H; [right; split; [reflexivity|] | left; split; [reflexivity|];
    cbn in H; injection H as <-; reflexivity].
  rewrite bind_spec in H; injection H as H1 H2.
  destruct (fst (Rational_parse (at_ sj "frequency"))) as [f|]; cbv beta iota in H1, H2.
  2: { cbn in H2; subst errs; eexists; reflexivity. }
  destruct (as_bool _) as [lk|]; [|cbn in H2; subst errs; eexists; reflexivity].
  destruct (as_string _) as [str|]; [|cbn in H2; subst errs; eexists; reflexivity].
  repeat (match type of H1 with
          | context [String.eqb ?a ?b] =>
              let G := fresh "G" in destruct (String.eqb a b) eqn:G; cbv iota in H1, H2
          end).
  all: try (exfalso; fst_chain_in H1; cbn [fst ret] in H1; fst_chain_in H1;
            cbn [fst ret] in H1; discriminate H1).
  cbn in H2; subst errs; eexists; reflexivity.
Qed.

End Sync.

(** ** Lens groups with several members *)

Section LensGroups.
Context `{P : Primitives}.

Ltac split_members :=
  repeat (cbv beta iota;
          match goal with
          | |- context [contains ?g ?k] => destruct (contains g k)
          | |- context [?conv (at_ ?g ?k)] =>
              lazymatch type of (conv (at_ g k)) with
              | option _ => destruct (conv (at_ g k))
              end
          | |- context [match ?c with Some _ => _ | None => _ end] => destruct c
          end);
  reflexivity.

Lemma xyGroup_value (gj : json) :
  has_value (fst (Lens.xyGroup gj)) = member_valid gj "x" as_double && member_valid gj "y" as_double.
Proof.
  unfold Lens.xyGroup, member_valid; fst_chain.
  rewrite !fst_assignField; split_members.
Qed.

(** Member [g] of the [lens] section is present, and each of [ks] is a
    present and valid member of it. *)
Definition lens_group_valid {T} (d : json) (g : string) (ks : list string)
  (conv : json -> option T) : bool :=
  contains d "lens" && contains (at_ d "lens") g &&
  forallb (fun k => member_valid (at_ (at_ d "lens") g) k conv) ks.

Lemma standardFields_pair_groups (lj : json) (lens : Lens.Lens) :
  has_value (Lens.distortionShift (fst (Lens.standardFields lj lens))) =
    (contains lj "distortionShift" &&
     (member_valid (at_ lj "distortionShift") "x" as_double &&
      member_valid (at_ lj "distortionShift") "y" as_double))
    || has_value (Lens.distortionShift lens) /\
  has_value (Lens.perspectiveShift (fst (Lens.standardFields lj lens))) =
    (contains lj "perspectiveShift" &&
     (member_valid (at_ lj "perspectiveShift") "x" as_double &&
      member_valid (at_ lj "perspectiveShift") "y" as_double))
    || has_value (Lens.perspectiveShift lens) /\
  has_value (Lens.entrancePupilOffset (fst (Lens.standardFields lj lens))) =
    (contains lj "entrancePupilOffset" &&
     (member_valid (at_ lj "entrancePupilOffset") "num" as_int64 &&
      member_valid (at_ lj "entrancePupilOffset") "denom" as_int64))
    || has_value (Lens.entrancePupilOffset lens) /\
  has_value (Lens.exposureFalloff (fst (Lens.standardFields lj lens))) =
    (contains lj "exposureFalloff" && member_valid (at_ lj "exposureFalloff") "a1" as_double)
    || has_value (Lens.exposureFalloff lens).
Proof.
  unfold Lens.standardFields; fst_chain;
    cbn [fst ret Lens.distortionShift Lens.perspectiveShift Lens.entrancePupilOffset
         Lens.exposureFalloff].
  split; [|split; [|split]].
  - destruct (contains lj "distortionShift"); [|reflexivity].
    rewrite fst_bind; cbv beta; rewrite <- xyGroup_value.
    destruct (fst (Lens.xyGroup _)) as [[x y]|]; cbn; [reflexivity|].
    destruct (Lens.distortionShift lens); reflexivity.
  - destruct (contains lj "perspectiveShift"); [|reflexivity].
    rewrite fst_bind; cbv beta; rewrite <- xyGroup_value.
    destruct (fst (Lens.xyGroup _)) as [[x y]|]; cbn; [reflexivity|].
    destruct (Lens.perspectiveShift lens); reflexivity.
  - destruct (contains lj "entrancePupilOffset"); [|reflexivity]; cbv zeta.
    fst_chain; rewrite !fst_assignField; unfold member_valid;
      destruct (Lens.entrancePupilOffset lens); split_members.
  - destruct (contains lj "exposureFalloff"); [|reflexivity]; cbv zeta.
    fst_chain; rewrite !fst_assignField; unfold member_valid;
      destruct (Lens.exposureFalloff lens); split_members.
Qed.

(** [Lens::parse]: [distortionShift] and [perspectiveShift] are there
    exactly when both [x] and [y] are present and valid,
    [entrancePupilOffset] exactly when both [num] and [denom] are, and
    [exposureFalloff] exactly when [a1] is, whatever [a2] and [a3] hold. *)
Theorem Lens_multi_member_groups (d : json) (l : Lens.Lens) (errs : list string) :
  Lens.parse d = (Some l, errs) ->
  has_value (Lens.distortionShift l) = lens_group_valid d "distortionShift" ["x"; "y"] as_double /\
  has_value (Lens.perspectiveShift l) = lens_group_valid d "perspectiveShift" ["x"; "y"] as_double /\
  has_value (Lens.entrancePupilOffset l) =
    lens_group_valid d "entrancePupilOffset" ["num"; "denom"] as_int64 /\
  has_value (Lens.exposureFalloff l) = lens_group_valid d "exposureFalloff" ["a1"] as_double.
Proof.
  intros H; apply (f_equal fst) in H; unfold Lens.parse in H.
  destruct (negb (contains d "lens") && _); [discriminate|].
  remember (if contains d "static" && contains (at_ d "static") "lens"
            then Lens.staticFields (at_ (at_ d "static") "lens") Lens.empty
            else ret Lens.empty) as st eqn:Est.
  fst_chain_in H; cbn [fst ret] in H; injection H as <-.
  assert (S0 : Lens.distortionShift (fst st) = None /\ Lens.perspectiveShift (fst st) = None /\
               Lens.entrancePupilOffset (fst st) = None /\ Lens.exposureFalloff (fst st) = None).
  { subst st; destruct (_ && _); [unfold Lens.staticFields; fst_chain|]; repeat split. }
  destruct S0 as (S1 & S2 & S3 & S4).
  unfold lens_group_valid; cbn [forallb]; rewrite !andb_true_r.
  destruct (contains d "lens"); cbn [fst ret andb].
  - destruct (standardFields_pair_groups (at_ d "lens") (fst st)) as (G1 & G2 & G3 & G4).
    rewrite G1, G2, G3, G4, S1, S2, S3, S4; cbn [has_value]; rewrite !orb_false_r.
    repeat split; apply andb_assoc.
  - rewrite S1, S2, S3, S4; repeat split.
Qed.

(** [Lens::parse] reads its static fields only from [static.lens] and its
    standard fields only from [lens]: without [static.lens] the five static
    fields are absent, and without [lens] the fifteen standard ones are,
    whatever the other section holds. *)
Theorem Lens_fields_from_their_section (d : json) (l : Lens.Lens) (errs : list string) :
  Lens.parse d = (Some l, errs) ->
  (has_key_path d ["static"; "lens"] = false ->
     Lens.firmwareVersion l = None /\ Lens.make l = None /\ Lens.model l = None /\
     Lens.nominalFocalLength l = None /\ Lens.serialNumber l = None) /\
  (contains d "lens" = false ->
     Lens.custom l = None /\ Lens.distortion l = None /\ Lens.distortionOverscan l = None /\
     Lens.distortionScale l = None /\ Lens.distortionShift l = None /\
     Lens.encoders l = None /\ Lens.entrancePupilOffset l = None /\
     Lens.exposureFalloff l = None /\ Lens.fStop l = None /\ Lens.focalLength l = None /\
     Lens.focusDistance l = None /\ Lens.perspectiveShift l = None /\
     Lens.rawEncoders l = None /\ Lens.tStop l = None /\ Lens.undistortion l = None).
Proof.
  intros H; apply (f_equal fst) in H; unfold Lens.parse in H.
  destruct (negb (contains d "lens") && _); [discriminate|].
  fst_chain_in H; cbn [fst ret] in H; injection H as <-.
  cbn [has_key_path]; rewrite andb_true_r.
  split; intros A.
  - rewrite A; cbn [fst ret].
    destruct (contains d "lens"); [|repeat split].
    unfold Lens.standardFields; fst_chain; cbn [fst ret Lens.firmwareVersion Lens.make
      Lens.model Lens.nominalFocalLength Lens.serialNumber Lens.empty]; repeat split.
  - rewrite A; cbn [fst ret].
    destruct (_ && _); [|repeat split].
    unfold Lens.staticFields; fst_chain; cbn [fst ret Lens.custom Lens.distortion
      Lens.distortionOverscan Lens.distortionScale Lens.distortionShift Lens.encoders
      Lens.entrancePupilOffset Lens.exposureFalloff Lens.fStop Lens.focalLength
      Lens.focusDistance Lens.perspectiveShift Lens.rawEncoders Lens.tStop
      Lens.undistortion Lens.empty]; repeat split.
Qed.

End LensGroups.

(** [Tracker::parse] reads its static fields only from [static.tracker] and
    its standard fields only from [tracker]. *)
Theorem Tracker_fields_from_their_section (d : json) (t : Tracker.Tracker) (errs : list string) :
  Tracker.parse d = (Some t, errs) ->
  (has_key_path d ["static"; "tracker"] = false ->
     Tracker.firmwareVersion t = None /\ Tracker.make t = None /\ Tracker.model t = None /\
     Tracker.serialNumber t = None) /\
  (contains d "tracker" = false ->
     Tracker.notes t = None /\ Tracker.recording t = None /\ Tracker.slate t = None /\
     Tracker.status t = None).
Proof.
  intros H; apply (f_equal fst) in H; unfold Tracker.parse in H.
  destruct (negb (contains d "tracker") && _); [discriminate|].
  fst_chain_in H.
  cbn [has_key_path]; rewrite andb_true_r.
  split; intros A; rewrite A in H; cbv iota in H; cbn [fst ret] in H;
    match type of H with
    | context [fst ?x] => destruct (fst x) as [[[a b] c] e]
    end;
    cbn [fst ret] in H; injection H as <-; repeat split.
Qed.

(** [Camera::parse] and [Timing::parse] never reject an object section as
    a whole: they return a value, whatever its members hold. *)
Theorem Camera_Timing_object_section_present `{P : Primitives} (d : json) :
  (has_key_path d ["static"; "camera"] = true ->
     is_object (at_ (at_ d "static") "camera") = true ->
     exists c errs, Camera.parse d = (Some c, errs)) /\
  (is_object (at_ d "timing") = true ->
     exists t errs, Timing.parse d = (Some t, errs)).
Proof.
  cbn [has_key_path]; rewrite andb_true_r; split.
  - intros H Ho; apply andb_true_iff in H; destruct H as [H1 H2].
    unfold Camera.parse; rewrite H1, H2, Ho; cbv beta iota zeta delta [negb orb].
    repeat (apply bind_some; intros ?).
    do 2 eexists; reflexivity.
  - intros Ho.
    assert (C : contains d "timing" = true)
      by (apply at_present; intros E; rewrite E in Ho; discriminate).
    unfold Timing.parse; rewrite C, Ho; cbv beta iota zeta delta [negb].
    repeat (apply bind_some; intros ?).
    do 2 eexists; reflexivity.
Qed.

Lemma fieldCheckAndAssign_value (gj : json) (k : string) (q : Q) :
  fst (GlobalStage.fieldCheckAndAssign gj k) = Some q -> as_double (at_ gj k) = Some q.
Proof.
  unfold GlobalStage.fieldCheckAndAssign; destruct (contains gj k); cbn [negb].
  - destruct (as_double (at_ gj k)); cbn; [intros H; exact H | discriminate].
  - cbn; discriminate.
Qed.

(** The coordinates of a GlobalStage returned by [GlobalStage::parse] are
    the numbers of its six members (integers read as doubles). *)
Theorem GlobalStage_values (d : json) (g : GlobalStage.GlobalStage) (errs : list string) :
  GlobalStage.parse d = (Some g, errs) ->
  let gj := at_ d "globalStage" in
  as_double (at_ gj "E") = Some (GlobalStage.e g) /\
  as_double (at_ gj "N") = Some (GlobalStage.n g) /\
  as_double (at_ gj "U") = Some (GlobalStage.u g) /\
  as_double (at_ gj "lat0") = Some (GlobalStage.lat0 g) /\
  as_double (at_ gj "lon0") = Some (GlobalStage.lon0 g) /\
  as_double (at_ gj "h0") = Some (GlobalStage.h0 g).
Proof.
  intros H; apply (f_equal fst) in H; cbv zeta; unfold GlobalStage.parse in H.
  destruct (negb (contains d "globalStage")); [discriminate|].
  destruct (negb (is_object _)); [cbn in H; discriminate|].
  cbv zeta in H.
  repeat (rewrite fst_bind in H; cbv beta in H;
          match type of H with
          | context [match fst (GlobalStage.fieldCheckAndAssign ?gj ?k) with _ => _ end] =>
              let F := fresh "F" in
              destruct (fst (GlobalStage.fieldCheckAndAssign gj k)) eqn:F;
              [apply fieldCheckAndAssign_value in F | cbn in H; discriminate]
          end).
  cbn [fst ret] in H; injection H as <-; cbn.
  repeat split; assumption.
Qed.

Lemma assignRegexField_kept_matches (j : json) (f : string) (p : Regex.regex) (s : string) :
  fst (assignRegexField j f None p) = Some s -> Regex.regex_match p s = true.
Proof.
  rewrite fst_assignRegexField; unfold regex_member_valid.
  destruct (contains j f); cbn [andb]; [|discriminate].
  destruct (as_string (at_ j f)) as [s'|]; [|discriminate].
  destruct (Regex.regex_match p s') eqn:R; [|discriminate].
  intros H; injection H as <-; exact R.
Qed.

(** The pattern-checked strings kept in a Camera and a Synchronization
    match their patterns: [fdlLink] the urn:uuid pattern and [ptp.master]
    the MAC-address pattern. *)
Theorem pattern_fields_match `{P : Primitives} :
  (forall d c errs s, Camera.parse d = (Some c, errs) -> Camera.fdlLink c = Some s ->
     Regex.regex_match Regex.uuid_pattern s = true) /\
  (forall sj y errs p m, Timing.parseSynchronization sj = (Some y, errs) ->
     Timing.ptp y = Some p -> Timing.master p = Some m ->
     Regex.regex_match Regex.mac_pattern m = true).
Proof.
  split.
  - intros d c errs s H Hs; apply (f_equal fst) in H; unfold Camera.parse in H.
    destruct (_ || _); [discriminate|].
    destruct (negb _); [cbn in H; discriminate|].
    fst_chain_in H; cbn [fst ret] in H; injection H as <-; cbn [Camera.fdlLink] in Hs.
    exact (assignRegexField_kept_matches _ _ _ _ Hs).
  - intros sj y errs p m H Hp Hm; apply (f_equal fst) in H;
      unfold Timing.parseSynchronization in H; cbv zeta in H.
    destruct (negb _); [cbn in H; discriminate|].
    rewrite fst_bind in H; cbv beta in H.
    destruct (fst (Rational_parse _)) as [f|]; [|cbn in H; discriminate].
    destruct (as_bool _) as [lk|]; [|cbn in H; discriminate].
    destruct (as_string _) as [str|]; [|cbn in H; discriminate].
    rewrite fst_bind in H; cbv beta in H.
    repeat (match type of H with
            | context [String.eqb ?a ?b] =>
                let G := fresh "G" in destruct (String.eqb a b) eqn:G; cbv iota in H
            end).
    all: fst_chain_in H; cbn [fst ret emplace_back] in H; fst_chain_in H;
      cbn [fst ret emplace_back] in H; try discriminate.
    all: injection H as <-; cbn [Timing.ptp] in Hp.
    all: destruct (contains sj "ptp"); [|discriminate]; cbv zeta in Hp; fst_chain_in Hp.
    all: destruct (_ && _ && _); cbn [fst ret] in Hp; [discriminate|].
    all: injection Hp as <-; cbn [Timing.master] in Hm.
    all: exact (assignRegexField_kept_matches _ _ _ _ Hm).
Qed.

(** ** The language of a pattern *)

Module RegexSem.
Import Regex.

Inductive matches : regex -> list ascii -> Prop :=
| m_eps : matches Eps []
| m_class (p : ascii -> bool) (c : ascii) : p c = true -> matches (Class p) [c]
| m_seq r1 r2 w1 w2 : matches r1 w1 -> matches r2 w2 -> matches (Seq r1 r2) (w1 ++ w2)
| m_altl r1 r2 w : matches r1 w -> matches (Alt r1 r2) w
| m_altr r1 r2 w : matches r2 w -> matches (Alt r1 r2) w
| m_star0 r : matches (Star r) []
| m_star r w1 w2 : matches r w1 -> matches (Star r) w2 -> matches (Star r) (w1 ++ w2).

Lemma nullable_spec (r : regex) : nullable r = true <-> matches r [].
Proof.
  induction r as [| | p | r1 IH1 r2 IH2 | r1 IH1 r2 IH2 | r IH]; cbn [nullable]; split.
  - discriminate.
  - intros H; inversion H.
  - intros _; constructor.
  - reflexivity.
  - discriminate.
  - intros H; inversion H.
  - intros H; apply andb_true_iff in H; destruct H as [H1 H2].
    apply (m_seq r1 r2 [] []); [apply IH1 | apply IH2]; assumption.
  - intros H; inversion H; subst.
    match goal with E : (_ ++ _)%list = [] |- _ => apply app_eq_nil in E; destruct E; subst end.
    apply andb_true_iff; split; [apply IH1 | apply IH2]; assumption.
  - intros H; apply orb_true_iff in H; destruct H as [H | H];
      [apply m_altl, IH1 | apply m_altr, IH2]; exact H.
  - intros H; inversion H; subst; apply orb_true_iff; [left; apply IH1 | right; apply IH2];
      assumption.
  - intros _; constructor.
  - reflexivity.
Qed.

Lemma star_inv (r : regex) (c : ascii) (w : list ascii) :
  matches (Star r) (c :: w) ->
  exists w1 w2, w = (w1 ++ w2)%list /\ matches r (c :: w1) /\ matches (Star r) w2.
Proof.
  intros H; remember (Star r) as s eqn:Es; remember (c :: w) as cw eqn:Ecw.
  revert c w Ecw; induction H; intros c' w' Ecw; try discriminate.
  injection Es as ->.
  destruct w1 as [|a w1].
  - apply IHmatches2; [reflexivity | exact Ecw].
  - injection Ecw as -> <-; exists w1, w2; split; [reflexivity | split; assumption].
Qed.

Lemma seq_inv (r1 r2 : regex) (w : list ascii) :
  matches (Seq r1 r2) w -> exists w1 w2, w = (w1 ++ w2)%list /\ matches r1 w1 /\ matches r2 w2.
Proof. intros H; inversion H; subst; eauto. Qed.

Lemma deriv_spec (r : regex) (c : ascii) (w : list ascii) :
  matches (deriv c r) w <-> matches r (c :: w).
Proof.
  revert w; induction r as [| | p | r1 IH1 r2 IH2 | r1 IH1 r2 IH2 | r IH]; intros w;
    cbn [deriv].
  - split; intros H; inversion H.
  - split; intros H; inversion H.
  - destruct (p c) eqn:E; split; intros H.
    + inversion H; subst; constructor; exact E.
    + inversion H; subst; constructor.
    + inversion H.
    + inversion H; subst; congruence.
  - destruct (nullable r1) eqn:N; split; intros H.
    + inversion H as [| | | ? ? ? M | ? ? ? M | |]; subst.
      * destruct (seq_inv _ _ _ M) as (w1 & w2 & -> & M1 & M2).
        apply (m_seq r1 r2 (c :: w1) w2); [apply IH1 | ]; assumption.
      * apply (m_seq r1 r2 [] (c :: w)); [apply nullable_spec; exact N | apply IH2; exact M].
    + destruct (seq_inv _ _ _ H) as (w1 & w2 & E & M1 & M2).
      destruct w1 as [|a w1].
      * apply m_altr, IH2; cbn in E; rewrite E; exact M2.
      * injection E as -> ->; apply m_altl, m_seq; [apply IH1 |]; assumption.
    + destruct (seq_inv _ _ _ H) as (w1 & w2 & -> & M1 & M2).
      apply (m_seq r1 r2 (c :: w1) w2); [apply IH1 |]; assumption.
    + destruct (seq_inv _ _ _ H) as (w1 & w2 & E & M1 & M2).
      destruct w1 as [|a w1].
      * apply nullable_spec in M1; congruence.
      * injection E as -> ->; apply m_seq; [apply IH1 |]; assumption.
  - split; intros H; inversion H; subst;
      [apply m_altl, IH1 | apply m_altr, IH2 | apply m_altl, IH1 | apply m_altr, IH2];
      assumption.
  - split; intros H.
    + destruct (seq_inv _ _ _ H) as (w1 & w2 & -> & M1 & M2).
      apply (m_star r (c :: w1) w2); [apply IH |]; assumption.
    + destruct (star_inv r c w H) as (w1 & w2 & -> & M1 & M2).
      apply m_seq; [apply IH |]; assumption.
Qed.

(** The derivative matcher decides the language of the pattern. *)
Lemma regex_match_spec (r : regex) (s : string) :
  regex_match r s = true <-> matches r (list_ascii_of_string s).
Proof.
  revert r; induction s as [|c s IH]; intros r; cbn [regex_match list_ascii_of_string].
  - apply nullable_spec.
  - rewrite IH; apply deriv_spec.
Qed.

End RegexSem.

Section PatternShapes.
Import Regex RegexSem.

(** The length of every word of a pattern without [*], when it has one. *)
Fixpoint width (r : regex) : option nat :=
  match r with
  | Empty => None
  | Eps => Some 0%nat
  | Class _ => Some 1%nat
  | Seq r1 r2 =>
      match width r1, width r2 with Some a, Some b => Some (a + b)%nat | _, _ => None end
  | Alt r1 r2 =>
      match width r1, width r2 with
      | Some a, Some b => if Nat.eqb a b then Some a else None
      | _, _ => None
      end
  | Star _ => None
  end.

Lemma width_spec (r : regex) (w : list ascii) (n : nat) :
  width r = Some n -> matches r w -> List.length w = n.
Proof.
  intros Hw H; revert n Hw; induction H; intros n Hw; cbn [width] in Hw; try discriminate.
  - injection Hw as <-; reflexivity.
  - injection Hw as <-; reflexivity.
  - destruct (width r1) as [a|], (width r2) as [b|]; try discriminate.
    injection Hw as <-; rewrite length_app, (IHmatches1 a), (IHmatches2 b); reflexivity.
  - destruct (width r1) as [a|], (width r2) as [b|]; try discriminate.
    destruct (Nat.eqb a b); [injection Hw as <-; apply IHmatches; reflexivity | discriminate].
  - destruct (width r1) as [a|], (width r2) as [b|]; try discriminate.
    destruct (Nat.eqb a b) eqn:E; [injection Hw as <- | discriminate].
    apply Nat.eqb_eq in E; subst; apply IHmatches; reflexivity.
Qed.

Lemma lit_spec (s : string) (w : list ascii) :
  matches (lit s) w -> w = list_ascii_of_string s.
Proof.
  revert w; induction s as [|a s IH]; intros w H; cbn [lit list_ascii_of_string] in *.
  - inversion H; reflexivity.
  - destruct (seq_inv _ _ _ H) as (w1 & w2 & -> & M1 & M2).
    inversion M1 as [| p c E | | | | |]; subst.
    apply Ascii.eqb_eq in E; subst; rewrite (IH _ M2); reflexivity.
Qed.

Lemma list_ascii_length (s : string) : List.length (list_ascii_of_string s) = String.length s.
Proof. induction s as [|a s IH]; cbn; [reflexivity | rewrite IH; reflexivity]. Qed.

Lemma list_ascii_append (a b : string) :
  list_ascii_of_string (a ++ b) = (list_ascii_of_string a ++ list_ascii_of_string b)%list.
Proof. induction a as [|c a IH]; cbn; [reflexivity | rewrite IH; reflexivity]. Qed.

Lemma string_of_list_ascii_app (l1 l2 : list ascii) :
  string_of_list_ascii (l1 ++ l2) = (string_of_list_ascii l1 ++ string_of_list_ascii l2)%string.
Proof. induction l1 as [|c l1 IH]; cbn; [reflexivity | rewrite IH; reflexivity]. Qed.

Lemma uuid_pattern_shape (s : string) :
  regex_match uuid_pattern s = true ->
  exists rest, s = ("urn:uuid:" ++ rest)%string /\ String.length rest = 36%nat.
Proof.
  intros H; apply regex_match_spec in H; unfold uuid_pattern in H.
  destruct (seq_inv _ _ _ H) as (w1 & w2 & E & M1 & M2).
  apply lit_spec in M1; subst w1.
  apply (width_spec _ _ 36%nat) in M2; [|reflexivity].
  exists (string_of_list_ascii w2); split.
  - rewrite <- (string_of_list_ascii_of_string s), E, string_of_list_ascii_app,
      string_of_list_ascii_of_string; reflexivity.
  - rewrite <- list_ascii_length, list_ascii_of_string_of_list_ascii; exact M2.
Qed.

Lemma star_class (p : ascii -> bool) (w : list ascii) :
  matches (Star (Class p)) w <-> forallb p w = true.
Proof.
  split.
  - intros H; remember (Star (Class p)) as r eqn:Er; induction H; try discriminate.
    + reflexivity.
    + injection Er as ->; inversion H; subst; cbn.
      rewrite H2; apply IHmatches2; reflexivity.
  - induction w as [|c w IH]; intros H; [constructor|].
    cbn in H; apply andb_true_iff in H; destruct H as [H1 H2].
    apply (m_star _ [c] w); [constructor; exact H1 | apply IH; exact H2].
Qed.

Lemma plus_class (p : ascii -> bool) (w : list ascii) :
  matches (plus (Class p)) w <-> w <> [] /\ forallb p w = true.
Proof.
  unfold plus; split.
  - intros H; destruct (seq_inv _ _ _ H) as (w1 & w2 & -> & M1 & M2).
    inversion M1; subst; cbn; split; [discriminate|].
    rewrite H1; apply star_class; exact M2.
  - intros [Hn Hf]; destruct w as [|c w]; [contradiction|].
    cbn in Hf; apply andb_true_iff in Hf; destruct Hf as [H1 H2].
    apply (m_seq _ _ [c] w); [constructor; exact H1 | apply star_class; exact H2].
Qed.

End PatternShapes.

(** A non-empty string of decimal digits. *)
Definition all_digits (s : string) : bool :=
  negb (String.eqb s "") && forallb (Regex.range "0" "9") (list_ascii_of_string s).

(** A character [.] matches: anything but a line terminator. *)
Definition line_char (c : ascii) : bool :=
  negb (Ascii.eqb c (ascii_of_nat 10) || Ascii.eqb c (ascii_of_nat 13)).

Lemma all_digits_spec (s : string) :
  all_digits s = true <-> RegexSem.matches (Regex.plus Regex.digit) (list_ascii_of_string s).
Proof.
  unfold all_digits, Regex.digit; rewrite plus_class.
  destruct s as [|c s]; cbn [String.eqb negb andb list_ascii_of_string].
  - split; [discriminate | intros [H _]; contradiction].
  - split; [intros H; split; [discriminate | exact H] | intros [_ H]; exact H].
Qed.

(** The version pattern [^[0-9]+.[0-9]+.[0-9]+$] accepts exactly three
    non-empty digit runs separated by any two characters other than a line
    terminator, since its dots are unescaped. *)
Theorem version_pattern_language (s : string) :
  Regex.regex_match Regex.version_pattern s = true <->
  exists a x b y c,
    s = (a ++ String x (b ++ String y c))%string /\
    all_digits a = true /\ all_digits b = true /\ all_digits c = true /\
    line_char x = true /\ line_char y = true.
Proof.
  rewrite RegexSem.regex_match_spec; unfold Regex.version_pattern; split.
  - intros H.
    destruct (RegexSem.seq_inv _ _ _ H) as (wa & r1 & E1 & Ma & H1).
    destruct (RegexSem.seq_inv _ _ _ H1) as (wx & r2 & -> & Mx & H2).
    destruct (RegexSem.seq_inv _ _ _ H2) as (wb & r3 & -> & Mb & H3).
    destruct (RegexSem.seq_inv _ _ _ H3) as (wy & wc & -> & My & Mc).
    inversion Mx as [| p x Ex | | | | |]; subst.
    inversion My as [| p y Ey | | | | |]; subst.
    exists (string_of_list_ascii wa), x, (string_of_list_ascii wb), y, (string_of_list_ascii wc).
    repeat split; try assumption.
    + rewrite <- (string_of_list_ascii_of_string s), E1, !string_of_list_ascii_app; reflexivity.
    + apply all_digits_spec; rewrite list_ascii_of_string_of_list_ascii; exact Ma.
    + apply all_digits_spec; rewrite list_ascii_of_string_of_list_ascii; exact Mb.
    + apply all_digits_spec; rewrite list_ascii_of_string_of_list_ascii; exact Mc.
  - intros (a & x & b & y & c & -> & Ha & Hb & Hc & Hx & Hy).
    apply all_digits_spec in Ha, Hb, Hc.
    rewrite list_ascii_append; cbn [list_ascii_of_string]; rewrite list_ascii_append;
      cbn [list_ascii_of_string].
    apply RegexSem.m_seq; [exact Ha|].
    apply (RegexSem.m_seq _ _ [x]); [constructor; exact Hx|].
    apply RegexSem.m_seq; [exact Hb|].
    apply (RegexSem.m_seq _ _ [y]); [constructor; exact Hy | exact Hc].
Qed.

(** A string the urn:uuid pattern accepts: ["urn:uuid:"] then 36 characters. *)
Definition uuid_shaped (s : string) : Prop :=
  exists rest, s = ("urn:uuid:" ++ rest)%string /\ String.length rest = 36%nat.

(** Every identifier the decoders keep has the urn:uuid shape:
    [sampleId], [streamId], the Camera's [fdlLink] and each kept element of
    [relatedSampleIds] is ["urn:uuid:"] followed by 36 characters. *)
Theorem kept_ids_uuid_shaped `{P : Primitives} :
  (forall d x errs, SampleId.parse d = (Some x, errs) -> uuid_shaped (SampleId.value x)) /\
  (forall d x errs, StreamId.parse d = (Some x, errs) -> uuid_shaped (StreamId.value x)) /\
  (forall d c errs s, Camera.parse d = (Some c, errs) -> Camera.fdlLink c = Some s ->
     uuid_shaped s) /\
  (forall d r errs s, RelatedSampleIds.parse d = (Some r, errs) ->
     In s (RelatedSampleIds.samples r) -> uuid_shaped s).
Proof.
  split; [|split; [|split]].
  - intros d [v] errs H; apply (f_equal fst) in H; unfold SampleId.parse in H.
    destruct (negb _); [discriminate|].
    fst_chain_in H; destruct (fst (assignRegexField _ _ _ _)) as [s|] eqn:F;
      cbn in H; [|discriminate].
    injection H as <-; apply uuid_pattern_shape, (assignRegexField_kept_matches _ _ _ _ F).
  - intros d [v] errs H; apply (f_equal fst) in H; unfold StreamId.parse in H.
    destruct (negb _); [discriminate|].
    fst_chain_in H; destruct (fst (assignRegexField _ _ _ _)) as [s|] eqn:F;
      cbn in H; [|discriminate].
    injection H as <-; apply uuid_pattern_shape, (assignRegexField_kept_matches _ _ _ _ F).
  - intros d c errs s H Hs; apply (f_equal fst) in H; unfold Camera.parse in H.
    destruct (_ || _); [discriminate|].
    destruct (negb _); [cbn in H; discriminate|].
    fst_chain_in H; cbn [fst ret] in H; injection H as <-; cbn [Camera.fdlLink] in Hs.
    apply uuid_pattern_shape, (assignRegexField_kept_matches _ _ _ _ Hs).
  - intros d r errs s H Hin; apply (f_equal fst) in H; unfold RelatedSampleIds.parse in H.
    destruct (negb _); [discriminate|].
    destruct (negb _); [cbn in H; discriminate|].
    cbv zeta in H; fst_chain_in H; cbn [fst ret] in H; injection H as <-.
    cbn [RelatedSampleIds.samples] in Hin.
    destruct (RelatedSampleIds_loop_spec
                (match at_ d "relatedSampleIds" with JArray l => l | _ => [] end) []) as [L _].
    apply (in_map JString) in Hin; rewrite L in Hin; cbn in Hin.
    apply filter_In in Hin; destruct Hin as [_ V]; cbn in V.
    apply uuid_pattern_shape, V.
Qed.

(** A Timing returned by [Timing::parse] has mode EXTERNAL exactly when
    [timing.mode] is the string ["external"]. *)
Theorem Timing_mode_external_iff `{P : Primitives} (d : json) (t : Timing.Timing)
  (errs : list string) :
  Timing.parse d = (Some t, errs) ->
  (Timing.mode t = Some Timing.EXTERNAL <-> at_ (at_ d "timing") "mode" = JString "external").
Proof.
  intros H; apply (f_equal fst) in H; unfold Timing.parse in H.
  destruct (negb (contains d "timing")); [discriminate|].
  destruct (negb _); [cbn in H; discriminate|].
  cbv zeta in H; fst_chain_in H; cbn [fst ret] in H; injection H as <-; cbn [Timing.mode].
  rewrite fst_assignField.
  destruct (contains (at_ d "timing") "mode") eqn:C.
  - destruct (at_ (at_ d "timing") "mode") as [| | | | s | |]; cbn [as_string has_value andb];
      cbv delta [Timing.literal_as_bool Timing.opt_eq] beta iota; rewrite ?orb_true_r;
      cbn [fst ret emplace_back bind];
      try (split; discriminate).
    destruct (String.eqb s "external") eqn:E; cbn [fst ret].
    + apply String.eqb_eq in E; subst; split; reflexivity.
    + split; [discriminate | intros F; injection F as ->; discriminate E].
  - rewrite (at_absent _ _ C); cbn; split; discriminate.
Qed.

(** ** Witnesses of the further properties on concrete documents *)

Definition wide_angle_kvs : list (string * json) :=
  [("make", JString "ARRI"); ("isoSpeed", JInt 800); ("shutterAngle", JInt 400000)].

Lemma Camera_shutterAngle_at_most_360000_witness :
  @Camera.parse SpecPrimitives.primitives (camera_doc [("shutterAngle", JInt 180000)]) =
    (Some (Camera.mkCamera None None None None None None None None None None None
             (Some 180000%Z)), []) /\
  (180000 <= 360000)%Z.
Proof.
  split; [reflexivity|].
  apply (@Camera_shutterAngle_at_most_360000 SpecPrimitives.primitives
           (camera_doc [("shutterAngle", JInt 180000)])
           (Camera.mkCamera None None None None None None None None None None None
              (Some 180000%Z)) [] 180000%Z); reflexivity.
Defined.

Lemma Camera_shutterAngle_above_range_only_clears_it_witness :
  at_ (at_ (camera_doc wide_angle_kvs) "static") "camera" = JObject wide_angle_kvs /\
  at_ (JObject wide_angle_kvs) "shutterAngle" = JInt 400000 /\
  (360000 < 400000)%Z /\ (400000 < 2 ^ 31)%Z /\
  exists c errs,
    @Camera.parse SpecPrimitives.primitives (camera_doc wide_angle_kvs) =
      (Some c, errs ++ [Camera.shutter_angle_msg])%list /\
    @Camera.parse SpecPrimitives.primitives
      (camera_doc (remove_key "shutterAngle" wide_angle_kvs)) = (Some c, errs) /\
    Camera.shutterAngle c = None.
Proof.
  split; [reflexivity|]; split; [reflexivity|]; split; [lia|]; split; [lia|].
  apply (@Camera_shutterAngle_above_range_only_clears_it SpecPrimitives.primitives
           (camera_doc wide_angle_kvs) wide_angle_kvs 400000%Z);
    [reflexivity | reflexivity | lia | lia].
Defined.

Definition stage_doc : json :=
  JObject [("globalStage", JObject [("E", JInt 1); ("N", JString "north"); ("U", JInt 3)])].

Lemma GlobalStage_all_or_first_error_witness :
  is_object (at_ stage_doc "globalStage") = true /\
  has_value (fst (GlobalStage.parse stage_doc)) = globalStage_valid (at_ stage_doc "globalStage") /\
  length (snd (GlobalStage.parse stage_doc)) =
    (if globalStage_valid (at_ stage_doc "globalStage") then 0%nat else 1%nat).
Proof.
  split; [reflexivity|].
  apply GlobalStage_all_or_first_error; reflexivity.
Defined.

Definition stage_full_doc : json :=
  JObject [("globalStage", JObject [("E", JInt 1); ("N", JFloat (1 # 2)); ("U", JInt 3);
                                    ("lat0", JInt 4); ("lon0", JInt 5); ("h0", JInt 6)])].

Lemma GlobalStage_values_witness :
  exists g errs,
    GlobalStage.parse stage_full_doc = (Some g, errs) /\
    GlobalStage.n g = (1 # 2) /\ GlobalStage.h0 g = inject_Z 6.
Proof.
  destruct (GlobalStage.parse stage_full_doc) as [[g|] errs] eqn:E;
    [| simpl in E; discriminate E].
  exists g, errs; split; [reflexivity|].
  destruct (GlobalStage_values _ _ _ E) as (_ & GN & _ & _ & _ & GH).
  simpl in GN, GH; injection GN as GN; injection GH as GH.
  split; symmetry; assumption.
Defined.

Definition duration_doc : json :=
  JObject [("static", JObject [("duration", JObject [("num", JInt 24); ("denom", JInt 1)])])].

Lemma Duration_object_reports_missing_witness :
  has_key_path duration_doc ["static"; "duration"] = true /\
  is_object (at_ (at_ duration_doc "static") "duration") = true /\
  exists errs, Duration.parse duration_doc = (None, errs ++ [Duration.missing_msg])%list.
Proof.
  split; [reflexivity|]; split; [reflexivity|].
  apply Duration_object_reports_missing; reflexivity.
Defined.

Definition nameless_version_doc : json :=
  JObject [("protocol", JObject [("name", JString "OpenTrackIO")])].

Lemma Protocol_missing_version_silent_witness :
  at_ (at_ nameless_version_doc "protocol") "name" = JString "OpenTrackIO" /\
  contains (at_ nameless_version_doc "protocol") "version" = false /\
  Protocol.parse nameless_version_doc = (None, []).
Proof.
  split; [reflexivity|]; split; [reflexivity|].
  apply (Protocol_missing_version_silent _ "OpenTrackIO"); reflexivity.
Defined.

Definition transforms_doc : json :=
  JObject [("transforms", JArray [JObject [("id", JString "Camera")]; JInt 3;
                                  JObject [("id", JString "Dolly")]])].

Lemma Transforms_keeps_accepted_entries_witness :
  at_ transforms_doc "transforms" =
    JArray [JObject [("id", JString "Camera")]; JInt 3; JObject [("id", JString "Dolly")]] /\
  @Transforms.parse SpecPrimitives.primitives transforms_doc =
    (Some (@Transforms.mkTransforms SpecPrimitives.primitives
             [[("id", JString "Camera")]; [("id", JString "Dolly")]]),
     ["field: transform isn't of type: object"]).
Proof.
  split; [reflexivity|].
  apply (@Transforms_keeps_accepted_entries SpecPrimitives.primitives transforms_doc
           [JObject [("id", JString "Camera")]; JInt 3; JObject [("id", JString "Dolly")]]).
  reflexivity.
Defined.

Definition sync_doc (src : string) : json :=
  JObject [("frequency", JObject [("num", JInt 24); ("denom", JInt 1)]);
           ("locked", JBool true); ("source", JString src)].

Lemma parseSynchronization_required_fields_witness :
  exists y errs,
    @Timing.parseSynchronization SpecPrimitives.primitives (sync_doc "videoIn") = (Some y, errs) /\
    Timing.source y = Timing.VIDEO_IN /\ Timing.locked y = true.
Proof.
  destruct (@Timing.parseSynchronization SpecPrimitives.primitives (sync_doc "videoIn"))
    as [[y|] errs] eqn:E; [| simpl in E; discriminate E].
  exists y, errs; split; [reflexivity|].
  destruct (@parseSynchronization_required_fields SpecPrimitives.primitives _ _ _ E)
    as (_ & _ & HL & HS).
  simpl in HL, HS; injection HL as HL; split; [|symmetry; exact HL].
  destruct (Timing.source y); simpl in HS; try discriminate HS; reflexivity.
Defined.

Lemma parseSynchronization_rejection_one_error_witness :
  @Timing.parseSynchronization SpecPrimitives.primitives (sync_doc "gps") =
    (None, ["field: timing/synchronization/source isn't a valid enumeration"]) /\
  ((sync_has_required (sync_doc "gps") = false /\
    ["field: timing/synchronization/source isn't a valid enumeration"] = [Timing.sync_missing_msg]) \/
   (sync_has_required (sync_doc "gps") = true /\
    exists m,
      ["field: timing/synchronization/source isn't a valid enumeration"] =
        (snd (@Rational_parse SpecPrimitives.primitives (at_ (sync_doc "gps") "frequency")) ++ [m])%list)).
Proof.
  split; [reflexivity|].
  apply (@parseSynchronization_rejection_one_error SpecPrimitives.primitives (sync_doc "gps")
           ["field: timing/synchronization/source isn't a valid enumeration"]).
  reflexivity.
Defined.

Definition shift_lens_doc : json :=
  JObject [("lens", JObject [("distortionShift", JObject [("x", JInt 1)]);
                             ("perspectiveShift", JObject [("x", JInt 1); ("y", JInt 2)]);
                             ("entrancePupilOffset", JObject [("num", JInt 1); ("denom", JFloat 1)]);
                             ("exposureFalloff", JObject [("a1", JInt 1); ("a2", JString "x")])])].

Lemma Lens_multi_member_groups_witness :
  exists l errs,
    @Lens.parse SpecPrimitives.primitives shift_lens_doc = (Some l, errs) /\
    has_value (Lens.distortionShift l) = false /\
    has_value (Lens.perspectiveShift l) = true /\
    has_value (Lens.entrancePupilOffset l) = false /\
    has_value (Lens.exposureFalloff l) = true.
Proof.
  destruct (@Lens.parse SpecPrimitives.primitives shift_lens_doc) as [[l|] errs] eqn:E;
    [| simpl in E; discriminate E].
  exists l, errs; split; [reflexivity|].
  destruct (@Lens_multi_member_groups SpecPrimitives.primitives _ _ _ E) as (G1 & G2 & G3 & G4).
  rewrite G1, G2, G3, G4; repeat split; reflexivity.
Defined.

Definition static_make_lens_doc : json :=
  JObject [("lens", JObject [("make", JString "Zeiss"); ("focalLength", JInt 35)])].

Lemma Lens_fields_from_their_section_witness :
  exists l errs,
    @Lens.parse SpecPrimitives.primitives static_make_lens_doc = (Some l, errs) /\
    Lens.make l = None.
Proof.
  destruct (@Lens.parse SpecPrimitives.primitives static_make_lens_doc) as [[l|] errs] eqn:E;
    [| simpl in E; discriminate E].
  exists l, errs; split; [reflexivity|].
  apply (proj1 (@Lens_fields_from_their_section SpecPrimitives.primitives _ _ _ E));
    reflexivity.
Defined.

Definition static_make_tracker_doc : json :=
  JObject [("tracker", JObject [("make", JString "Mo-Sys"); ("notes", JString "take 2")])].

Lemma Tracker_fields_from_their_section_witness :
  exists t errs,
    Tracker.parse static_make_tracker_doc = (Some t, errs) /\
    Tracker.make t = None.
Proof.
  destruct (Tracker.parse static_make_tracker_doc) as [[t|] errs] eqn:E;
    [| simpl in E; discriminate E].
  exists t, errs; split; [reflexivity|].
  apply (proj1 (Tracker_fields_from_their_section _ _ _ E)); reflexivity.
Defined.

Lemma Timing_mode_external_iff_witness :
  exists t errs,
    @Timing.parse SpecPrimitives.primitives (timing_doc [("mode", JString "external")]) =
      (Some t, errs) /\
    Timing.mode t = Some Timing.EXTERNAL.
Proof.
  destruct (@Timing.parse SpecPrimitives.primitives (timing_doc [("mode", JString "external")]))
    as [[t|] errs] eqn:E; [| simpl in E; discriminate E].
  exists t, errs; split; [reflexivity|].
  apply (@Timing_mode_external_iff SpecPrimitives.primitives _ _ _ E); reflexivity.
Defined.
